(** * chimney: alignment arithmetic, tagged pointers, slices, growable
      buffers and the aligned allocator, embedded from the C sources.

    Machine integers ([size_t], [uintptr_t]) are modelled as [Z] with the
    wrap-around of unsigned C arithmetic written out.  The target is the one
    checked for in the repository's sanity header: flat address space,
    [size_t] and [uintptr_t] of the same width (64 bits here), while the
    arguments of the GCC builtins [__builtin_popcount] and [__builtin_ctz] are
    [unsigned int] (32 bits).  A failed [assert] aborts the program: functions
    that assert return [option], with [None] for the abort.  The C library
    and injected allocators act on an abstract heap that is threaded through
    explicitly. *)

From Stdlib Require Import ZArith Lia Bool List.
Import ListNotations.

Local Open Scope Z_scope.

(* ================================================================== *)
(** ** Machine words *)

Module Word.

Definition UINTPTR_WIDTH : Z := 64.
Definition UINT_WIDTH : Z := 32.

Definition UINTPTR_MAX : Z := 2 ^ UINTPTR_WIDTH - 1.
Definition SIZE_MAX : Z := UINTPTR_MAX.

(** Conversion to [uintptr_t] / [size_t]: reduction modulo [2^64]. *)
Definition wrap (z : Z) : Z := z mod 2 ^ UINTPTR_WIDTH.

(** Conversion to [unsigned int], as happens to a [size_t] argument of a
    builtin that is declared on [unsigned int]. *)
Definition to_uint (z : Z) : Z := z mod 2 ^ UINT_WIDTH.

(** The values a [size_t] or [uintptr_t] variable can hold. *)
Definition word (z : Z) : Prop := 0 <= z < 2 ^ UINTPTR_WIDTH.

Definition u_add (a b : Z) : Z := wrap (a + b).
Definition u_sub (a b : Z) : Z := wrap (a - b).
Definition u_mul (a b : Z) : Z := wrap (a * b).
Definition u_not (a : Z) : Z := wrap (Z.lnot a).
Definition u_shl (a n : Z) : Z := wrap (Z.shiftl a n).

Definition NULL : Z := 0.

Fixpoint popcount_pos (p : positive) : Z :=
  match p with
  | xH => 1
  | xO q => popcount_pos q
  | xI q => 1 + popcount_pos q
  end.

Fixpoint ctz_pos (p : positive) : Z :=
  match p with
  | xO q => 1 + ctz_pos q
  | _ => 0
  end.

(** [int __builtin_popcount (unsigned int x)] *)
Definition __builtin_popcount (x : Z) : Z :=
  match to_uint x with
  | Zpos p => popcount_pos p
  | _ => 0
  end.

(** [int __builtin_ctz (unsigned int x)]; the result for [x = 0] is
    undefined in C and is taken to be [0] here (no caller below relies on
    it). *)
Definition __builtin_ctz (x : Z) : Z :=
  match to_uint x with
  | Zpos p => ctz_pos p
  | _ => 0
  end.

(** [assert(cond); k] : a failed assertion aborts, which is [None]. *)
Definition c_assert {A : Type} (cond : bool) (k : option A) : option A :=
  if cond then k else None.

(** The positive number [2^n], used to relate the builtins to powers of two. *)
Fixpoint pow2_positive (n : nat) : positive :=
  match n with
  | O => xH
  | S m => xO (pow2_positive m)
  end.

End Word.

Import Word.

Notation "'assert!' c ';;' k" := (c_assert c k)
  (at level 10, c at level 9, k at level 200, only parsing).

(* ================================================================== *)
(** ** alignment.h *)

Module Alignment.

Definition alignUp (bits alignment_pow2 : Z) : option Z :=
  assert! (__builtin_popcount alignment_pow2 =? 1) ;;
  let mask := u_sub alignment_pow2 1 in
  Some (if negb (Z.land bits mask =? 0)
        then u_add bits (u_add (Z.land (u_not bits) mask) 1)
        else bits).

Definition alignDown (bits alignment_pow2 : Z) : option Z :=
  assert! (__builtin_popcount alignment_pow2 =? 1) ;;
  let mask := u_sub alignment_pow2 1 in
  Some (Z.land bits (u_not mask)).

End Alignment.

(* ================================================================== *)
(** ** alloc/tags.h

    A [bitsptr_t] is a union of a pointer and a [uintptr_t] over the same
    word, so a [tagged_ptr] is that word.  [alignof(max_align_t)] is a
    constant of the platform and a parameter here. *)

Module Tags.

Section Platform.

Variable alignof_max_align_t : Z.

Definition CHIM_PTRTAGBITS_MAX : Z := __builtin_ctz alignof_max_align_t.

Definition CHIM_PTRTAG_PTRMASK : Z := u_shl (u_not 0) CHIM_PTRTAGBITS_MAX.
Definition CHIM_PTRTAG_BITSMASK : Z := u_not CHIM_PTRTAG_PTRMASK.

Definition is_taggable (ptr : Z) : bool :=
  Z.land ptr CHIM_PTRTAG_PTRMASK =? 0.

Definition setTag (ptr tag : Z) : option Z :=
  assert! (Z.land tag CHIM_PTRTAGBITS_MAX =? 0) ;;
  Some (Z.lor ptr tag).

Definition to_tagged_ptr (ptr tag : Z) : option Z :=
  assert! (is_taggable ptr) ;;
  setTag ptr tag.

Definition unTag (ptr : Z) : Z := Z.land ptr CHIM_PTRTAG_PTRMASK.

Definition getTag (ptr : Z) : Z := Z.land ptr CHIM_PTRTAG_BITSMASK.

End Platform.

End Tags.

(* ================================================================== *)
(** ** slice.h *)

Module Slice.

Record _larr : Type := Build_larr { len : Z; arr : Z }.

Definition _larr_mk (len arr : Z) : _larr := {| len := len; arr := arr |}.

Definition _larr_addrof (a : _larr) (index elemSize : Z) : Z :=
  if index <? len a
  then u_add (arr a) (u_mul elemSize index)
  else NULL.

Definition _larr_advance (a : _larr) (numElems elemSize : Z) : _larr :=
  let numElems := if numElems >? len a then len a else numElems in
  let a := {| len := u_sub (len a) numElems; arr := arr a |} in
  {| len := len a; arr := u_add (arr a) (u_mul elemSize numElems) |}.

Definition _larr_shrink (a : _larr) (numElems : Z) : _larr :=
  let numElems := if numElems >? len a then len a else numElems in
  {| len := u_sub (len a) numElems; arr := arr a |}.

End Slice.

(* ================================================================== *)
(** ** alloc/unaligned.h

    An [alloc_t] is a function pointer; calling it acts on the heap. *)

Module Alloc.

Section Heap.

Variable heap : Type.

Definition alloc_t : Type := Z -> Z -> heap -> Z * heap.

Definition allocIn (allocator : alloc_t) (size : Z) (h : heap) : Z * heap :=
  allocator NULL size h.

Definition reallocIn (allocator : alloc_t) (ptr size : Z) (h : heap)
  : Z * heap :=
  allocator ptr size h.

Definition freeIn (allocator : alloc_t) (ptr : Z) (h : heap) : heap :=
  snd (allocator ptr 0 h).

End Heap.

Arguments allocIn {heap}.
Arguments reallocIn {heap}.
Arguments freeIn {heap}.

End Alloc.

(* ================================================================== *)
(** ** The C library, as far as the sources call it *)

Module Libc.

Class Libc (heap : Type) : Type := {
  aligned_alloc : Z -> Z -> heap -> Z * heap;   (* alignment, size *)
  realloc : Z -> Z -> heap -> Z * heap;         (* ptr, size *)
  free : Z -> heap -> heap;                     (* ptr *)
  memcpy : Z -> Z -> Z -> heap -> heap          (* dest, src, n *)
}.

(** A scripted C library for running the code on concrete inputs: the heap
    is the list of pointers the allocating calls will return, in order
    ([NULL] once the script is used up), and the record of calls made. *)

Inductive call : Type :=
| Call_aligned_alloc (alignment size : Z)
| Call_realloc (ptr size : Z)
| Call_free (ptr : Z)
| Call_memcpy (dest src n : Z).

Record script : Type := { answers : list Z; calls : list call }.

Definition answer (c : call) (s : script) : Z * script :=
  match answers s with
  | [] => (NULL, {| answers := []; calls := calls s ++ [c] |})
  | p :: rest => (p, {| answers := rest; calls := calls s ++ [c] |})
  end.

Definition record (c : call) (s : script) : script :=
  {| answers := answers s; calls := calls s ++ [c] |}.

#[export] Instance scripted : Libc script := {
  aligned_alloc alignment size := answer (Call_aligned_alloc alignment size);
  realloc ptr size := answer (Call_realloc ptr size);
  free ptr := record (Call_free ptr);
  memcpy dest src n := record (Call_memcpy dest src n)
}.

(** The scripted library behind the single-function allocator interface. *)
Definition scripted_alloc : Alloc.alloc_t script :=
  fun ptr size => answer (Call_realloc ptr size).

End Libc.

(* ================================================================== *)
(** ** buffer.c (the engine behind buffer.h)

    The [_dynarr*] argument is modelled by passing the structure in and
    returning it, as updated, next to the C return value. *)

Module Buffer.

Import Alloc Libc.

Record _dynarr : Type := Build_dynarr { cap : Z; len : Z; buf : Z }.

Definition set_cap (a : _dynarr) (v : Z) : _dynarr :=
  {| cap := v; len := len a; buf := buf a |}.
Definition set_len (a : _dynarr) (v : Z) : _dynarr :=
  {| cap := cap a; len := v; buf := buf a |}.
Definition set_buf (a : _dynarr) (v : Z) : _dynarr :=
  {| cap := cap a; len := len a; buf := v |}.

Section Engine.

Context {heap : Type} `{Libc heap}.

Definition _dynarr_init (mem : alloc_t heap) (arr : _dynarr) (cap0 size : Z)
  (h : heap) : bool * _dynarr * heap :=
  if cap0 =? 0 then (false, arr, h)
  else if u_mul cap0 size <? size then (false, arr, h)
  else
    let '(p, h) := allocIn mem (u_mul cap0 size) h in
    let arr := set_buf arr p in
    if buf arr =? NULL then (false, arr, h)
    else
      let arr := set_cap arr cap0 in
      let arr := set_len arr 0 in
      (true, arr, h).

Definition _dynarr_deinit (mem : alloc_t heap) (arr : _dynarr) (h : heap)
  : _dynarr * heap :=
  let arr := set_cap arr 0 in
  let arr := set_len arr 0 in
  let h := freeIn mem (buf arr) h in
  (set_buf arr NULL, h).

Definition _dynarr_push (mem : alloc_t heap) (arr : _dynarr)
  (elem elemSize : Z) (h : heap) : option (bool * _dynarr * heap) :=
  assert! (negb (cap arr =? 0)) ;;
  let tail (arr : _dynarr) (h : heap) :=
    let h := memcpy (u_add (buf arr) (u_mul elemSize (len arr))) elem elemSize h in
    let arr := set_len arr (u_add (len arr) 1) in
    Some (true, arr, h) in
  if len arr =? cap arr then
    if cap arr >=? SIZE_MAX / 2 then Some (false, arr, h)
    else
      let arr := set_cap arr (u_mul (cap arr) 2) in
      let '(new, h) := reallocIn mem (buf arr) (u_mul (cap arr) elemSize) h in
      if buf arr =? NULL then Some (false, arr, h)
      else
        let arr := set_buf arr new in
        tail arr h
  else tail arr h.

Definition _dynarr_peek (arr : _dynarr) (elemSize : Z) : Z :=
  if len arr =? 0 then NULL
  else u_add (buf arr) (u_mul elemSize (u_sub (len arr) 1)).

Definition _dynarr_pop (arr : _dynarr) (elemSize : Z) : Z * _dynarr :=
  if len arr =? 0 then (NULL, arr)
  else
    let arr := set_len arr (u_sub (len arr) 1) in
    (u_add (buf arr) (u_mul elemSize (len arr)), arr).

Definition _dynarr_resize (mem : alloc_t heap) (arr : _dynarr)
  (newCap elemSize : Z) (h : heap) : bool * _dynarr * heap :=
  if newCap =? 0 then (false, arr, h)
  else
    let '(new, h) := reallocIn mem (buf arr) (u_mul (cap arr) elemSize) h in
    if new =? NULL then (false, arr, h)
    else
      let arr := set_cap arr newCap in
      let arr := if newCap <? len arr then set_len arr newCap else arr in
      let arr := set_buf arr new in
      (true, arr, h).

End Engine.

End Buffer.

(* ================================================================== *)
(** ** alloc/aligned.c *)

Module Aligned.

Import Libc.

Definition is_aligned (ptr log_alignment : Z) : bool :=
  let mask := u_sub (u_shl 1 log_alignment) 1 in
  Z.land ptr mask =? 0.

Section StdLib.

Context {heap : Type} `{Libc heap}.

Definition aligned_realloc (ptr alignment size : Z) (h : heap) : Z * heap :=
  if ptr =? NULL then aligned_alloc alignment size h
  else if size =? 0 then (NULL, free ptr h)
  else
    if negb (__builtin_popcount alignment =? 1) then (NULL, h)
    else
      let '(new, h) := aligned_alloc alignment size h in
      if new =? NULL then (NULL, h)
      else
        let '(attempt, h) := realloc ptr size h in
        if is_aligned attempt (__builtin_ctz alignment)
        then (attempt, free new h)
        else
          let h := memcpy new attempt size h in
          let h := free attempt h in
          (new, h).

Definition std_aalloc : Z -> Z -> Z -> heap -> Z * heap := aligned_realloc.

End StdLib.

End Aligned.

(* ================================================================== *)
(** ** alloc/aligned.h

    The aligned allocator interface: one function pointer taking the
    existing block, the alignment and the size. *)

Module AlignedPort.

Section Heap.

Variable heap : Type.

Definition aligned_alloc_t : Type := Z -> Z -> Z -> heap -> Z * heap.

Definition aallocIn (allocator : aligned_alloc_t) (alignment size : Z)
  (h : heap) : Z * heap :=
  allocator NULL alignment size h.

Definition areallocIn (allocator : aligned_alloc_t) (ptr alignment size : Z)
  (h : heap) : Z * heap :=
  allocator ptr alignment size h.

Definition afreeIn (allocator : aligned_alloc_t) (ptr : Z) (h : heap) : heap :=
  snd (allocator ptr 1 0 h).

End Heap.

Arguments aallocIn {heap}.
Arguments areallocIn {heap}.
Arguments afreeIn {heap}.

End AlignedPort.

(* ================================================================== *)
(** ** The typed instances of buffer.h and slice.h

    Instantiating a header at a type name [T] produces wrappers that call
    the untyped engine with [sizeof(T)]; the typed structure has the layout
    of the untyped one (checked by the headers' static assertions), so the
    cast between the two is the identity here.  The boxed headers do the
    same with the size of a pointer to [T], through the [any] instance for
    slices. *)

Module Typed.

Import Alloc Libc Buffer Slice.

(** [sizeof(byte)] and, on the 64-bit target, [sizeof(any)], the size of a
    [void] pointer. *)
Definition sizeof_byte : Z := 1.
Definition sizeof_any : Z := 8.

(** A [bool] converted to a pointer and back, as happens to the result of
    [dynarr_resize], which is cast to a pointer to [T] in a function returning
    [bool]. *)
Definition ptr_of_bool (b : bool) : Z := if b then 1 else 0.
Definition bool_of_ptr (p : Z) : bool := negb (p =? NULL).

Section Instance.

Variable sizeof_T : Z.

Context {heap : Type} `{Libc heap}.

Definition dynarr_init (mem : alloc_t heap) (arr : _dynarr) (cap0 : Z)
  (h : heap) : bool * _dynarr * heap :=
  _dynarr_init mem arr cap0 sizeof_T h.

Definition dynarr_deinit (mem : alloc_t heap) (arr : _dynarr) (h : heap)
  : _dynarr * heap :=
  _dynarr_deinit mem arr h.

Definition dynarr_push (mem : alloc_t heap) (arr : _dynarr) (elem : Z)
  (h : heap) : option (bool * _dynarr * heap) :=
  _dynarr_push mem arr elem sizeof_T h.

Definition dynarr_peek (arr : _dynarr) : Z := _dynarr_peek arr sizeof_T.

Definition dynarr_pop (arr : _dynarr) : Z * _dynarr :=
  _dynarr_pop arr sizeof_T.

Definition dynarr_resize (mem : alloc_t heap) (arr : _dynarr) (newCap : Z)
  (h : heap) : bool * _dynarr * heap :=
  let '(b, arr, h) := _dynarr_resize mem arr newCap sizeof_T h in
  (bool_of_ptr (ptr_of_bool b), arr, h).

Definition larr_mk (len arr : Z) : _larr := {| len := len; arr := arr |}.

Definition larr_addrof (a : _larr) (index : Z) : Z :=
  _larr_addrof a index sizeof_T.

Definition larr_advance (a : _larr) (numElems : Z) : _larr :=
  _larr_advance a numElems sizeof_T.

Definition larr_shrink (a : _larr) (numElems : Z) : _larr :=
  _larr_shrink a numElems.

End Instance.

(** slice/boxed.h: the boxed slice of any [T] goes through the [any]
    instance. *)
Definition larrp_mk (len arr : Z) : _larr :=
  {| Slice.len := len; Slice.arr := arr |}.

Definition larrp_addrof (a : _larr) (index : Z) : Z :=
  larr_addrof sizeof_any a index.

Definition larrp_advance (a : _larr) (numElems : Z) : _larr :=
  larr_advance sizeof_any a numElems.

Definition larrp_shrink (a : _larr) (numElems : Z) : _larr :=
  larr_shrink a numElems.

End Typed.

(* ================================================================== *)
(** ** Facts about machine words *)

Module WordFacts.

Lemma two_p_64 : 2 ^ UINTPTR_WIDTH = 18446744073709551616.
Proof. reflexivity. Qed.

Lemma wrap_small z : 0 <= z < 2 ^ UINTPTR_WIDTH -> wrap z = z.
Proof. intros Hz. unfold wrap. now apply Z.mod_small. Qed.

Lemma wrap_range z : 0 <= wrap z < 2 ^ UINTPTR_WIDTH.
Proof. unfold wrap. apply Z.mod_pos_bound. reflexivity. Qed.

Lemma wrap_le z : 0 <= z -> wrap z <= z.
Proof. intros Hz. unfold wrap. apply Z.mod_le; [assumption | reflexivity]. Qed.

Lemma pow2_le_mono a b : 0 <= a <= b -> 2 ^ a <= 2 ^ b.
Proof. intros Hab. apply Z.pow_le_mono_r; lia. Qed.

Lemma pow2_pos k : 0 <= k -> 0 < 2 ^ k.
Proof. intros Hk. apply Z.pow_pos_nonneg; lia. Qed.

Lemma pow2_split k : 0 <= k <= UINTPTR_WIDTH ->
  2 ^ UINTPTR_WIDTH = 2 ^ k * 2 ^ (UINTPTR_WIDTH - k).
Proof.
  intros Hk. rewrite <- Z.pow_add_r by lia. f_equal. lia.
Qed.

(** The mask [alignment - 1] of a power of two is a block of low ones. *)
Lemma mask_ones k : 0 <= k < UINTPTR_WIDTH -> u_sub (2 ^ k) 1 = Z.ones k.
Proof.
  intros Hk. unfold u_sub. rewrite Z.ones_equiv, Z.sub_1_r.
  apply wrap_small.
  assert (2 ^ k <= 2 ^ UINTPTR_WIDTH) by (apply pow2_le_mono; lia).
  pose proof (pow2_pos k). lia.
Qed.

(** Bitwise and with a value already reduced modulo [2^64]. *)
Lemma land_wrap_r a b : word a -> Z.land a (wrap b) = Z.land a b.
Proof.
  intros Ha. unfold wrap.
  rewrite <- Z.land_ones by (unfold UINTPTR_WIDTH; lia).
  rewrite (Z.land_comm b), Z.land_assoc.
  rewrite Z.land_ones by (unfold UINTPTR_WIDTH; lia).
  now rewrite Z.mod_small.
Qed.

Lemma land_wrap_ones a k : 0 <= k <= UINTPTR_WIDTH ->
  Z.land (wrap a) (Z.ones k) = a mod 2 ^ k.
Proof.
  intros Hk. rewrite Z.land_ones by lia. unfold wrap.
  rewrite (pow2_split k Hk).
  rewrite Z.rem_mul_r.
  2: { pose proof (pow2_pos k); lia. }
  2: { apply pow2_pos; lia. }
  rewrite Z.mul_comm, Z.mod_add.
  - apply Z.mod_mod. pose proof (pow2_pos k). lia.
  - pose proof (pow2_pos k). lia.
Qed.

Lemma lnot_mod_pow2 a k : 0 <= k ->
  Z.lnot a mod 2 ^ k = 2 ^ k - 1 - a mod 2 ^ k.
Proof.
  intros Hk. pose proof (pow2_pos k Hk) as Hp.
  unfold Z.lnot. rewrite <- Z.sub_1_r.
  symmetry. apply Z.mod_unique with (q := - (a / 2 ^ k) - 1).
  - left. pose proof (Z.mod_pos_bound a (2 ^ k) Hp). lia.
  - pose proof (Z.div_mod a (2 ^ k)). lia.
Qed.

Lemma u_not_value a : word a -> u_not a = UINTPTR_MAX - a.
Proof.
  intros Ha. unfold u_not, wrap, UINTPTR_MAX.
  rewrite lnot_mod_pow2 by (unfold UINTPTR_WIDTH; lia).
  now rewrite Z.mod_small.
Qed.

(** Clearing the low [k] bits. *)
Lemma land_not_ones a k : word a -> 0 <= k ->
  Z.land a (u_not (Z.ones k)) = a - a mod 2 ^ k.
Proof.
  intros Ha Hk. unfold u_not. rewrite land_wrap_r by assumption.
  rewrite <- Z.ldiff_land, Z.ldiff_ones_r by assumption.
  rewrite Z.shiftr_div_pow2, Z.shiftl_mul_pow2 by assumption.
  pose proof (pow2_pos k Hk).
  pose proof (Z.div_mod a (2 ^ k)). lia.
Qed.

Lemma pow2_positive_spec n : Zpos (pow2_positive n) = 2 ^ Z.of_nat n.
Proof.
  induction n as [|n IH].
  - reflexivity.
  - cbn [pow2_positive]. rewrite Pos2Z.inj_xO, IH, Nat2Z.inj_succ.
    rewrite Z.pow_succ_r by lia. reflexivity.
Qed.

Lemma popcount_pow2_positive n : popcount_pos (pow2_positive n) = 1.
Proof. induction n; cbn; auto. Qed.

Lemma ctz_pow2_positive n : ctz_pos (pow2_positive n) = Z.of_nat n.
Proof.
  induction n as [|n IH].
  - reflexivity.
  - cbn [pow2_positive ctz_pos]. rewrite IH. lia.
Qed.

Lemma to_uint_pow2 k : 0 <= k < UINT_WIDTH ->
  to_uint (2 ^ k) = Zpos (pow2_positive (Z.to_nat k)).
Proof.
  intros Hk. rewrite pow2_positive_spec, Z2Nat.id by lia.
  unfold to_uint. apply Z.mod_small.
  split; [apply Z.lt_le_incl, pow2_pos; lia|].
  apply Z.pow_lt_mono_r; lia.
Qed.

Lemma popcount_pow2 k : 0 <= k < UINT_WIDTH -> __builtin_popcount (2 ^ k) = 1.
Proof.
  intros Hk. unfold __builtin_popcount. rewrite to_uint_pow2 by assumption.
  apply popcount_pow2_positive.
Qed.

Lemma ctz_pow2 k : 0 <= k < UINT_WIDTH -> __builtin_ctz (2 ^ k) = k.
Proof.
  intros Hk. unfold __builtin_ctz. rewrite to_uint_pow2 by assumption.
  rewrite ctz_pow2_positive. lia.
Qed.

(** A power of two at or above [2^32] has no bit left once converted to
    [unsigned int]. *)
Lemma popcount_pow2_high k : UINT_WIDTH <= k -> __builtin_popcount (2 ^ k) = 0.
Proof.
  intros Hk. unfold __builtin_popcount, to_uint.
  replace k with (UINT_WIDTH + (k - UINT_WIDTH)) by lia.
  rewrite Z.pow_add_r by (unfold UINT_WIDTH in *; lia).
  rewrite Z.mul_comm, Z.mod_mul; [reflexivity|]. discriminate.
Qed.

End WordFacts.

(* ================================================================== *)
(** ** Alignment arithmetic *)

Module AlignmentFacts.

Import Alignment WordFacts.

Section Values.

Variables (x k : Z).
Hypothesis Hx : word x.
Hypothesis Hk : 0 <= k < UINT_WIDTH.

Let Hk64 : 0 <= k < UINTPTR_WIDTH.
Proof. unfold UINT_WIDTH, UINTPTR_WIDTH in *. lia. Qed.

Lemma alignDown_value : alignDown x (2 ^ k) = Some (x - x mod 2 ^ k).
Proof.
  unfold alignDown, c_assert. rewrite popcount_pow2 by assumption.
  cbn [Z.eqb Pos.eqb]. rewrite mask_ones by assumption.
  now rewrite land_not_ones by (assumption || lia).
Qed.

Lemma alignUp_value :
  alignUp x (2 ^ k) =
  Some (if x mod 2 ^ k =? 0 then x else wrap (x - x mod 2 ^ k + 2 ^ k)).
Proof.
  unfold alignUp, c_assert. rewrite popcount_pow2 by assumption.
  cbn [Z.eqb Pos.eqb]. rewrite mask_ones by assumption.
  rewrite Z.land_ones by lia.
  destruct (x mod 2 ^ k =? 0) eqn:E; cbn [negb]; [reflexivity|].
  f_equal. unfold u_not.
  rewrite land_wrap_ones by lia.
  rewrite lnot_mod_pow2 by lia.
  unfold u_add.
  assert (Hp : 0 < 2 ^ k) by (apply pow2_pos; lia).
  pose proof (Z.mod_pos_bound x (2 ^ k) Hp) as Hm.
  assert (Hle : 2 ^ k <= 2 ^ UINTPTR_WIDTH) by (apply pow2_le_mono; lia).
  rewrite (wrap_small (2 ^ k - 1 - x mod 2 ^ k + 1)) by lia.
  f_equal. lia.
Qed.

End Values.

(** C7, as stated, fails on the code.  For an input that is not aligned,
    [alignUp] is exactly one alignment step above [alignDown], so the strict
    bound [alignUp x p < alignDown x p + p] is false (at [x = 1], [p = 2]);
    at the top of the address range the sum in [alignUp] wraps to [0] and is
    below its input; and a power of two from [2^32] on does not pass the
    assertion, whose popcount sees the low 32 bits only. *)
Lemma align_bracket_counterexample :
  (alignUp 1 2 = Some 2 /\ alignDown 1 2 = Some 0 /\ ~ 2 < 0 + 2) /\
  (alignUp UINTPTR_MAX 2 = Some 0 /\ ~ UINTPTR_MAX <= 0) /\
  alignUp 0 (2 ^ 32) = None.
Proof.
  split; [|split].
  - repeat split; lia.
  - split; [reflexivity|]. unfold UINTPTR_MAX, UINTPTR_WIDTH. lia.
  - reflexivity.
Qed.

(** C7 (amended): for every [x] of the address type and every power of two
    [p = 2^k] below [2^32], [alignDown x p <= x] and
    [alignUp x p <= alignDown x p + p]; [x <= alignUp x p] whenever the
    rounded value is representable, that is [x <= 2^64 - p] (and then, for
    [x] not a multiple of [p], [alignUp x p] is exactly
    [alignDown x p + p]); and both functions return [x] itself when [x] is
    a multiple of [p]. *)
Theorem align_bracket (x k : Z) :
  word x -> 0 <= k < UINT_WIDTH ->
  exists u d,
    alignUp x (2 ^ k) = Some u /\
    alignDown x (2 ^ k) = Some d /\
    d <= x /\
    (x <= 2 ^ UINTPTR_WIDTH - 2 ^ k ->
     x <= u /\ (x mod 2 ^ k <> 0 -> u = d + 2 ^ k)) /\
    u <= d + 2 ^ k /\
    (x mod 2 ^ k = 0 -> u = x /\ d = x).
Proof.
  intros Hx Hk.
  assert (Hp : 0 < 2 ^ k) by (apply pow2_pos; lia).
  pose proof (Z.mod_pos_bound x (2 ^ k) Hp) as Hm.
  eexists. eexists.
  split; [apply alignUp_value; assumption|].
  split; [apply alignDown_value; assumption|].
  destruct (Z.eqb_spec (x mod 2 ^ k) 0) as [E|E].
  - split; [lia|]. split; [|split].
    + intros _. split; [lia|]. intros E0. contradiction.
    + lia.
    + intros _. split; lia.
  - split; [lia|]. split; [|split].
    + intros Hfit. rewrite wrap_small by (unfold word in Hx; lia).
      split; [lia|]. intros _. reflexivity.
    + apply wrap_le. unfold word in Hx. lia.
    + intros E0. contradiction.
Qed.

Lemma align_bracket_witness :
  exists u d,
    alignUp 13 (2 ^ 3) = Some u /\
    alignDown 13 (2 ^ 3) = Some d /\
    d <= 13 /\
    (13 <= 2 ^ UINTPTR_WIDTH - 2 ^ 3 ->
     13 <= u /\ (13 mod 2 ^ 3 <> 0 -> u = d + 2 ^ 3)) /\
    u <= d + 2 ^ 3 /\
    (13 mod 2 ^ 3 = 0 -> u = 13 /\ d = 13).
Proof.
  apply (align_bracket 13 3).
  - unfold word, UINTPTR_WIDTH. lia.
  - unfold UINT_WIDTH. lia.
Defined.

End AlignmentFacts.

(* ================================================================== *)
(** ** Tagged pointers *)

Module TagsFacts.

Import Tags WordFacts.

Section Masks.

(** [alignof(max_align_t)] is a power of two [2^t]; [t] is the number of
    tag bits. *)
Variable t : Z.
Hypothesis Ht : 0 <= t < UINT_WIDTH.

Let Ht64 : 0 <= t < UINTPTR_WIDTH.
Proof. unfold UINT_WIDTH, UINTPTR_WIDTH in *. lia. Qed.

Lemma tagbits_value : CHIM_PTRTAGBITS_MAX (2 ^ t) = t.
Proof. unfold CHIM_PTRTAGBITS_MAX. now apply ctz_pow2. Qed.

Lemma ptrmask_value : CHIM_PTRTAG_PTRMASK (2 ^ t) = u_not (Z.ones t).
Proof.
  assert (Hp : 0 < 2 ^ t) by (apply pow2_pos; lia).
  assert (Hle : 2 ^ t < 2 ^ UINTPTR_WIDTH) by (apply Z.pow_lt_mono_r; lia).
  unfold CHIM_PTRTAG_PTRMASK. rewrite tagbits_value.
  rewrite !u_not_value by (unfold word; rewrite ?Z.ones_equiv; lia).
  unfold u_shl, wrap. rewrite Z.shiftl_mul_pow2 by lia.
  rewrite Z.ones_equiv, Z.sub_0_r. unfold UINTPTR_MAX.
  symmetry. apply Z.mod_unique with (q := 2 ^ t - 1); [left; lia|lia].
Qed.

Lemma bitsmask_value : CHIM_PTRTAG_BITSMASK (2 ^ t) = Z.ones t.
Proof.
  assert (Hp : 0 < 2 ^ t) by (apply pow2_pos; lia).
  assert (Hle : 2 ^ t < 2 ^ UINTPTR_WIDTH) by (apply Z.pow_lt_mono_r; lia).
  unfold CHIM_PTRTAG_BITSMASK. rewrite ptrmask_value.
  rewrite (u_not_value (Z.ones t)) by (unfold word; rewrite Z.ones_equiv; lia).
  rewrite u_not_value by (unfold word, UINTPTR_MAX; rewrite Z.ones_equiv; lia).
  lia.
Qed.

(** [unTag] clears the low [t] bits, [getTag] keeps only them. *)
Lemma unTag_value w : word w -> unTag (2 ^ t) w = w - w mod 2 ^ t.
Proof.
  intros Hw. unfold unTag. rewrite ptrmask_value.
  apply land_not_ones; [assumption | lia].
Qed.

Lemma getTag_value w : getTag (2 ^ t) w = w mod 2 ^ t.
Proof.
  unfold getTag. rewrite bitsmask_value. apply Z.land_ones. lia.
Qed.

(** What [is_taggable] decides: that no bit {e above} the tag bits is set. *)
Lemma is_taggable_value ptr : word ptr ->
  is_taggable (2 ^ t) ptr = (ptr <? 2 ^ t).
Proof.
  intros Hp. unfold is_taggable. fold (unTag (2 ^ t) ptr).
  rewrite unTag_value by assumption.
  assert (H2 : 0 < 2 ^ t) by (apply pow2_pos; lia).
  destruct (Z.ltb_spec ptr (2 ^ t)) as [Hlt|Hge].
  - unfold word in Hp. rewrite Z.mod_small by lia. apply Z.eqb_eq. lia.
  - apply Z.eqb_neq. pose proof (Z.mod_pos_bound ptr (2 ^ t) H2). lia.
Qed.

(** The bit identities behind packing: or-ing a tag below [2^t] into a word
    whose low [t] bits are clear can be undone by the two masks. *)
Lemma lor_unTag ptr tag : word ptr -> ptr mod 2 ^ t = 0 -> 0 <= tag < 2 ^ t ->
  unTag (2 ^ t) (Z.lor ptr tag) = ptr.
Proof.
  intros Hp Hal Htag. unfold unTag. rewrite Z.land_lor_distr_l.
  fold (unTag (2 ^ t) ptr). fold (unTag (2 ^ t) tag).
  assert (Hle : 2 ^ t < 2 ^ UINTPTR_WIDTH) by (apply Z.pow_lt_mono_r; lia).
  rewrite !unTag_value by (unfold word in *; lia).
  rewrite Hal, (Z.mod_small tag) by lia.
  rewrite Z.sub_diag, Z.sub_0_r. apply Z.lor_0_r.
Qed.

Lemma lor_getTag ptr tag : ptr mod 2 ^ t = 0 -> 0 <= tag < 2 ^ t ->
  getTag (2 ^ t) (Z.lor ptr tag) = tag.
Proof.
  intros Hal Htag. unfold getTag. rewrite Z.land_lor_distr_l.
  fold (getTag (2 ^ t) ptr). fold (getTag (2 ^ t) tag).
  rewrite !getTag_value, Hal, (Z.mod_small tag) by lia.
  apply Z.lor_0_l.
Qed.

(** [setTag], when its assertion passes, or-s the new tag into the word: the
    tag read back is the union of the old and the new tag bits. *)
Lemma getTag_setTag tp tag v : 0 <= tag < 2 ^ t ->
  setTag (2 ^ t) tp tag = Some v ->
  getTag (2 ^ t) v = Z.lor (getTag (2 ^ t) tp) tag.
Proof.
  intros Htag. unfold setTag, c_assert.
  destruct (Z.land tag _ =? 0); [|discriminate].
  intros [= <-]. unfold getTag. rewrite Z.land_lor_distr_l.
  f_equal. fold (getTag (2 ^ t) tag). rewrite getTag_value.
  apply Z.mod_small. lia.
Qed.

End Masks.

(** C4: on every platform (alignment [2^t] of [max_align_t]) the pointer at
    address [2^t] has its [t] low bits clear, and [is_taggable] answers
    [false] for it, while it answers [true] for the odd address [1] as soon
    as there is a tag bit: the test masks with the pointer mask where the
    claim (and the function's documentation) needs the tag-bit mask. *)
Theorem is_taggable_rejects_aligned (t : Z) :
  0 <= t < UINT_WIDTH ->
  Z.land (2 ^ t) (Z.ones t) = 0 /\
  is_taggable (2 ^ t) (2 ^ t) = false /\
  (0 < t -> Z.land 1 (Z.ones t) <> 0 /\ is_taggable (2 ^ t) 1 = true).
Proof.
  intros Ht.
  assert (Hp : 0 < 2 ^ t) by (apply pow2_pos; lia).
  assert (Hle : 2 ^ t < 2 ^ UINTPTR_WIDTH)
    by (apply Z.pow_lt_mono_r; unfold UINT_WIDTH, UINTPTR_WIDTH in *; lia).
  split; [|split].
  - rewrite Z.land_ones by lia. apply Z.mod_same. lia.
  - rewrite is_taggable_value by (unfold word; lia). apply Z.ltb_irrefl.
  - intros Hpos.
    assert (H1 : 1 < 2 ^ t).
    { change 1 with (2 ^ 0) at 1. apply Z.pow_lt_mono_r; lia. }
    split.
    + rewrite Z.land_ones, Z.mod_small by lia. discriminate.
    + rewrite is_taggable_value by (unfold word; lia). now apply Z.ltb_lt.
Qed.

Lemma is_taggable_rejects_aligned_witness :
  Z.land (2 ^ 4) (Z.ones 4) = 0 /\
  is_taggable (2 ^ 4) (2 ^ 4) = false /\
  (0 < 4 -> Z.land 1 (Z.ones 4) <> 0 /\ is_taggable (2 ^ 4) 1 = true).
Proof.
  apply (is_taggable_rejects_aligned 4). unfold UINT_WIDTH. lia.
Defined.

(** C5: with 16-byte [max_align_t] (four tag bits), re-tagging the word
    [0x11] (pointer [0x10], tag [1]) with the new tag [2] gives [0x13], whose
    tag reads back as [3], not [2]: the old tag bits are kept.  The new tag
    [4], although below [2^4], does not pass the function's assertion. *)
Theorem setTag_keeps_old_tag :
  setTag 16 17 2 = Some 19 /\ getTag 16 19 = 3 /\ setTag 16 16 4 = None.
Proof. repeat split. Qed.

(** C8: on every platform, packing a non-null pointer whose address is a
    multiple of [2^t] aborts on the assertion [is_taggable ptr], whatever the
    tag. *)
Theorem to_tagged_ptr_aborts_on_aligned (t ptr tag : Z) :
  0 <= t < UINT_WIDTH -> word ptr -> ptr mod 2 ^ t = 0 -> ptr <> NULL ->
  to_tagged_ptr (2 ^ t) ptr tag = None.
Proof.
  intros Ht Hp Hal Hnz. unfold to_tagged_ptr, c_assert.
  rewrite is_taggable_value by assumption.
  assert (H2 : 0 < 2 ^ t) by (apply pow2_pos; lia).
  destruct (Z.ltb_spec ptr (2 ^ t)) as [Hlt|Hge]; [|reflexivity].
  unfold word, NULL in *. rewrite Z.mod_small in Hal by lia. contradiction.
Qed.

Lemma to_tagged_ptr_aborts_on_aligned_witness :
  to_tagged_ptr (2 ^ 4) 4096 1 = None.
Proof.
  apply (to_tagged_ptr_aborts_on_aligned 4 4096 1).
  - unfold UINT_WIDTH. lia.
  - unfold word, UINTPTR_WIDTH. lia.
  - reflexivity.
  - discriminate.
Defined.

End TagsFacts.

(* ================================================================== *)
(** ** Slices *)

Module SliceFacts.

Import Slice WordFacts.

Lemma wrap_idem z : wrap (wrap z) = wrap z.
Proof. apply wrap_small, wrap_range. Qed.

(** Adding a zero offset to an address leaves the (reduced) address as it is. *)
Lemma u_add_zero_offset p elemSize :
  u_add (wrap p) (u_mul elemSize 0) = wrap p.
Proof.
  unfold u_add, u_mul. rewrite Z.mul_0_r.
  change (wrap 0) with 0. rewrite Z.add_0_r. apply wrap_idem.
Qed.

(** The number of elements [_larr_advance] really drops. *)
Lemma clamp_min n l :
  (if n >? l then l else n) = Z.min n l.
Proof.
  rewrite Z.gtb_ltb. destruct (Z.ltb_spec l n); lia.
Qed.

(** C9: [_larr_advance] drops [min n len] elements: the length becomes
    [max 0 (len - n)], the pointer moves by [elemSize * min n len] bytes (in
    address arithmetic, and as an exact sum whenever that sum is an
    address), and for [n <= len] the address of index [0] afterwards is the
    address of index [n] before. *)
Theorem advance_spec (a : _larr) (n elemSize : Z) :
  word (len a) -> word n ->
  let a' := _larr_advance a n elemSize in
  len a' = Z.max 0 (len a - n) /\
  arr a' = u_add (arr a) (u_mul elemSize (Z.min n (len a))) /\
  (0 <= elemSize * Z.min n (len a) ->
   0 <= arr a ->
   arr a + elemSize * Z.min n (len a) < 2 ^ UINTPTR_WIDTH ->
   arr a' = arr a + elemSize * Z.min n (len a)) /\
  (n <= len a -> _larr_addrof a' 0 elemSize = _larr_addrof a n elemSize).
Proof.
  intros Hl Hn a'. subst a'. unfold _larr_advance. cbn [len arr].
  rewrite clamp_min. unfold word in *.
  split; [|split; [|split]].
  - unfold u_sub. rewrite wrap_small by lia. lia.
  - reflexivity.
  - intros Hoff Harr Hfit. unfold u_add, u_mul.
    rewrite (wrap_small (elemSize * _)) by lia.
    apply wrap_small. lia.
  - intros Hle. unfold _larr_addrof. cbn [len arr].
    rewrite Z.min_l by lia.
    unfold u_sub. rewrite wrap_small by lia.
    destruct (Z.ltb_spec n (len a)) as [Hlt|Hge].
    + replace (0 <? len a - n) with true by (symmetry; apply Z.ltb_lt; lia).
      unfold u_add at 2. apply u_add_zero_offset.
    + replace (0 <? len a - n) with false by (symmetry; apply Z.ltb_ge; lia).
      reflexivity.
Qed.

Lemma advance_spec_witness :
  let a := _larr_mk 5 4096 in
  let a' := _larr_advance a 2 4 in
  len a' = Z.max 0 (len a - 2) /\
  arr a' = u_add (arr a) (u_mul 4 (Z.min 2 (len a))) /\
  (0 <= 4 * Z.min 2 (len a) ->
   0 <= arr a ->
   arr a + 4 * Z.min 2 (len a) < 2 ^ UINTPTR_WIDTH ->
   arr a' = arr a + 4 * Z.min 2 (len a)) /\
  (2 <= len a -> _larr_addrof a' 0 4 = _larr_addrof a 2 4).
Proof.
  apply (advance_spec (_larr_mk 5 4096) 2 4).
  - unfold word, UINTPTR_WIDTH. cbn. lia.
  - unfold word, UINTPTR_WIDTH. lia.
Defined.

End SliceFacts.

(* ================================================================== *)
(** ** Growable buffers *)

Module BufferFacts.

Import Alloc Libc Buffer WordFacts.

Section Engine.

Context {heap : Type} `{Libc heap}.

Variable mem : alloc_t heap.

(** [_dynarr_resize] tests the new block before it writes any field: when
    it returns [false] the structure is the one passed in. *)
Lemma resize_failure_keeps_buffer arr newCap elemSize h b arr' h' :
  _dynarr_resize mem arr newCap elemSize h = (b, arr', h') ->
  b = false -> arr' = arr.
Proof.
  unfold _dynarr_resize.
  destruct (newCap =? 0); [now intros [= <- <- <-]|].
  destruct (reallocIn mem _ _ h) as [new h1].
  destruct (new =? NULL); [now intros [= <- <- <-]|].
  intros [= <- <- <-]. discriminate.
Qed.

(** A zero capacity is refused by both [_dynarr_init] and [_dynarr_resize],
    with nothing touched. *)
Lemma init_zero_capacity arr size h :
  _dynarr_init mem arr 0 size h = (false, arr, h).
Proof. reflexivity. Qed.

Lemma resize_zero_capacity arr elemSize h :
  _dynarr_resize mem arr 0 elemSize h = (false, arr, h).
Proof. reflexivity. Qed.

(** When [_dynarr_init] succeeds, the length is [0], the capacity is [cap0]
    and the storage is what the allocator returned. *)
Lemma init_success arr cap0 size h arr' h' :
  _dynarr_init mem arr cap0 size h = (true, arr', h') ->
  cap0 <> 0 /\
  cap arr' = cap0 /\ len arr' = 0 /\
  (buf arr', h') = allocIn mem (u_mul cap0 size) h /\
  buf arr' <> NULL.
Proof.
  unfold _dynarr_init.
  destruct (Z.eqb_spec cap0 0) as [E|E]; [discriminate|].
  destruct (u_mul cap0 size <? size); [discriminate|].
  destruct (allocIn mem _ h) as [p h1].
  cbn [set_buf set_cap set_len buf cap len].
  destruct (Z.eqb_spec p NULL) as [Ep|Ep]; [discriminate|].
  intros [= <- <-]. cbn [cap len buf]. repeat split; assumption.
Qed.

(** A failed allocation makes [_dynarr_init] fail. *)
Lemma init_allocation_failure arr cap0 size h :
  fst (allocIn mem (u_mul cap0 size) h) = NULL ->
  fst (fst (_dynarr_init mem arr cap0 size h)) = false.
Proof.
  intros Hfail. unfold _dynarr_init.
  destruct (cap0 =? 0); [reflexivity|].
  destruct (u_mul cap0 size <? size); [reflexivity|].
  destruct (allocIn mem _ h) as [p h1]. cbn [fst] in Hfail. subst p.
  reflexivity.
Qed.

(** [_dynarr_push] returns [false] in two places: at the capacity limit,
    with no field written, and after the capacity has been doubled, when the
    {e old} storage pointer is null. *)
Lemma push_failure_cases arr elem elemSize h arr' h' :
  _dynarr_push mem arr elem elemSize h = Some (false, arr', h') ->
  arr' = arr \/
  (buf arr = NULL /\ arr' = set_cap arr (u_mul (cap arr) 2)).
Proof.
  unfold _dynarr_push, c_assert.
  destruct (negb (cap arr =? 0)); [|discriminate].
  destruct (len arr =? cap arr); [|discriminate].
  destruct (cap arr >=? SIZE_MAX / 2); [intros [= <- <-]; now left|].
  cbn [set_cap buf cap len].
  destruct (reallocIn mem _ _ h) as [new h1].
  destruct (Z.eqb_spec (buf arr) NULL) as [E|E]; [|discriminate].
  intros [= <- <-]. right. split; [assumption | reflexivity].
Qed.

(** C2: a full buffer below the capacity limit whose storage pointer is null
    makes [_dynarr_push] return [false] with the capacity field doubled: the
    failure is reported after [cap] has been written. *)
Theorem push_failure_changes_cap (arr : _dynarr) (elem elemSize : Z) (h : heap) :
  word (cap arr) -> cap arr <> 0 -> len arr = cap arr ->
  cap arr < SIZE_MAX / 2 -> buf arr = NULL ->
  exists arr' h',
    _dynarr_push mem arr elem elemSize h = Some (false, arr', h') /\
    cap arr' = 2 * cap arr /\
    arr' <> arr.
Proof.
  intros Hw Hnz Hfull Hlim Hnull.
  unfold _dynarr_push, c_assert.
  replace (cap arr =? 0) with false by (symmetry; now apply Z.eqb_neq).
  rewrite Hfull, Z.eqb_refl. cbn [negb].
  replace (cap arr >=? SIZE_MAX / 2) with false
    by (symmetry; rewrite Z.geb_leb; apply Z.leb_gt; assumption).
  cbn [set_cap buf cap len].
  destruct (reallocIn mem _ _ h) as [new h1].
  rewrite Hnull. cbn [Z.eqb NULL].
  assert (Hcap : u_mul (cap arr) 2 = 2 * cap arr).
  { unfold u_mul. rewrite wrap_small; [lia|].
    unfold word in Hw. change (SIZE_MAX / 2) with 9223372036854775807 in Hlim.
    rewrite two_p_64. lia. }
  eexists. eexists. split; [reflexivity|]. cbn [cap].
  split; [exact Hcap|].
  intros E. apply (f_equal cap) in E. unfold set_cap in E. cbn [cap] in E.
  rewrite Hcap in E. lia.
Qed.

(** C3: whatever new capacity is asked for, the size [_dynarr_resize] passes
    to the allocator is the {e current} capacity times the element size; on
    success the capacity field is nevertheless set to [newCap]. *)
Theorem resize_requests_old_capacity (arr : _dynarr) (newCap elemSize : Z)
  (h : heap) :
  newCap <> 0 ->
  let request := reallocIn mem (buf arr) (u_mul (cap arr) elemSize) h in
  let '(b, arr', h') := _dynarr_resize mem arr newCap elemSize h in
  h' = snd request /\
  (fst request <> NULL ->
   b = true /\ cap arr' = newCap /\ buf arr' = fst request /\
   len arr' = Z.min newCap (len arr)).
Proof.
  intros Hnz request. subst request. unfold _dynarr_resize.
  replace (newCap =? 0) with false by (symmetry; now apply Z.eqb_neq).
  destruct (reallocIn mem _ _ h) as [new h1]. cbn [fst snd].
  destruct (Z.eqb_spec new NULL) as [E|E].
  - split; [reflexivity|]. intros Hne. contradiction.
  - split; [reflexivity|]. intros _.
    unfold set_cap, set_len, set_buf. cbn [cap len buf].
    destruct (Z.ltb_spec newCap (len arr)); cbn [cap len buf];
      repeat split; lia.
Qed.

(** C6: the overflow test of [_dynarr_init] compares the wrapped product
    with the element size.  A product that overflows and wraps to a value
    that is not below the element size passes the test: the wrapped number
    of bytes is allocated and the call succeeds with capacity [cap0]. *)
Theorem init_accepts_wrapped_product (arr : _dynarr) (cap0 size : Z) (h : heap) :
  cap0 <> 0 ->
  SIZE_MAX < cap0 * size ->
  size <= u_mul cap0 size ->
  fst (allocIn mem (u_mul cap0 size) h) <> NULL ->
  exists p h',
    _dynarr_init mem arr cap0 size h =
      (true, {| cap := cap0; len := 0; buf := p |}, h') /\
    (p, h') = allocIn mem (u_mul cap0 size) h /\
    u_mul cap0 size < cap0 * size.
Proof.
  intros Hnz Hover Hpass Halloc. unfold _dynarr_init.
  replace (cap0 =? 0) with false by (symmetry; now apply Z.eqb_neq).
  replace (u_mul cap0 size <? size) with false
    by (symmetry; now apply Z.ltb_ge).
  destruct (allocIn mem _ h) as [p h1]. cbn [fst] in Halloc.
  cbn [set_buf set_cap set_len buf cap len].
  replace (p =? NULL) with false by (symmetry; now apply Z.eqb_neq).
  exists p, h1. split; [reflexivity|]. split; [reflexivity|].
  pose proof (wrap_range (cap0 * size)) as Hr. unfold u_mul.
  unfold SIZE_MAX, UINTPTR_MAX in Hover. lia.
Qed.

End Engine.

Lemma push_failure_changes_cap_witness :
  exists arr' h',
    _dynarr_push scripted_alloc {| cap := 1; len := 1; buf := NULL |} 8192 1
      {| answers := [4096]; calls := [] |} = Some (false, arr', h') /\
    cap arr' = 2 * 1 /\
    arr' <> {| cap := 1; len := 1; buf := NULL |}.
Proof.
  apply (push_failure_changes_cap scripted_alloc
           {| cap := 1; len := 1; buf := NULL |} 8192 1).
  - unfold word, UINTPTR_WIDTH. cbn. lia.
  - cbn. lia.
  - reflexivity.
  - reflexivity.
  - reflexivity.
Defined.

Lemma resize_requests_old_capacity_witness :
  8 <> 0 /\
  let '(b, arr', h') :=
    _dynarr_resize scripted_alloc {| cap := 4; len := 0; buf := 4096 |} 8 4
      {| answers := [8192]; calls := [] |} in
  h' = {| answers := []; calls := [Call_realloc 4096 16] |} /\
  (8192 <> NULL ->
   b = true /\ cap arr' = 8 /\ buf arr' = 8192 /\ len arr' = Z.min 8 0).
Proof.
  split; [discriminate|].
  apply (resize_requests_old_capacity scripted_alloc
           {| cap := 4; len := 0; buf := 4096 |} 8 4
           {| answers := [8192]; calls := [] |}).
  discriminate.
Defined.

Lemma init_accepts_wrapped_product_witness :
  exists p h',
    _dynarr_init scripted_alloc {| cap := 0; len := 0; buf := NULL |}
      9223372036854775809 2 {| answers := [4096]; calls := [] |} =
      (true, {| cap := 9223372036854775809; len := 0; buf := p |}, h') /\
    (p, h') = (4096, {| answers := []; calls := [Call_realloc NULL 2] |}) /\
    2 < 9223372036854775809 * 2.
Proof.
  apply (init_accepts_wrapped_product scripted_alloc
           {| cap := 0; len := 0; buf := NULL |} 9223372036854775809 2
           {| answers := [4096]; calls := [] |}).
  - discriminate.
  - reflexivity.
  - discriminate.
  - discriminate.
Defined.

End BufferFacts.

(* ================================================================== *)
(** ** The aligned allocator *)

Module AlignedFacts.

Import Libc Aligned WordFacts.

(** The null pointer has no bit set, so no mask finds one. *)
Lemma null_passes_any_mask (mask : Z) : (Z.land NULL mask =? 0) = true.
Proof. unfold NULL. now rewrite Z.land_0_l. Qed.

Section StdLib.

Context {heap : Type} `{Libc heap}.

(** The path of [aligned_realloc] on which the block is reserved and the
    plain reallocation then returns [NULL]: the test [is_aligned] sends it
    down the branch that frees the reservation and returns the attempt. *)
Lemma failed_attempt_path ptr alignment size h new h1 h2 :
  ptr <> NULL -> size <> 0 ->
  __builtin_popcount alignment = 1 ->
  aligned_alloc alignment size h = (new, h1) ->
  new <> NULL ->
  realloc ptr size h1 = (NULL, h2) ->
  aligned_realloc ptr alignment size h = (NULL, free new h2).
Proof.
  intros Hptr Hsize Hpop Hnew Hnz Hatt. unfold aligned_realloc.
  replace (ptr =? NULL) with false by (symmetry; now apply Z.eqb_neq).
  replace (size =? 0) with false by (symmetry; now apply Z.eqb_neq).
  rewrite Hpop. cbn [Z.eqb Pos.eqb negb].
  rewrite Hnew.
  replace (new =? NULL) with false by (symmetry; now apply Z.eqb_neq).
  rewrite Hatt. unfold is_aligned. now rewrite null_passes_any_mask.
Qed.

(** An alignment that does not show exactly one bit to the popcount is
    refused before anything is allocated. *)
Lemma refused_alignment_path ptr alignment size h :
  ptr <> NULL -> size <> 0 ->
  __builtin_popcount alignment <> 1 ->
  aligned_realloc ptr alignment size h = (NULL, h).
Proof.
  intros Hptr Hsize Hpop. unfold aligned_realloc.
  replace (ptr =? NULL) with false by (symmetry; now apply Z.eqb_neq).
  replace (size =? 0) with false by (symmetry; now apply Z.eqb_neq).
  replace (__builtin_popcount alignment =? 1) with false
    by (symmetry; now apply Z.eqb_neq).
  reflexivity.
Qed.

(** C1: for a non-null pointer, a power-of-two alignment and a nonzero size,
    if the block is reserved and the intermediate plain reallocation fails,
    the call returns [NULL].  For an alignment below [2^32] the only thing
    done to the heap after that reallocation is the release of the reserved
    block: nothing is copied from the failed result and it is not freed.
    (An alignment from [2^32] on is refused before the reservation, with the
    heap untouched.) *)
Theorem failed_attempt_fails_and_releases (ptr k size : Z) (h : heap) :
  ptr <> NULL -> size <> 0 -> 0 <= k < UINTPTR_WIDTH ->
  let alignment := 2 ^ k in
  let reserved := aligned_alloc alignment size h in
  let attempt := realloc ptr size (snd reserved) in
  fst reserved <> NULL ->
  fst attempt = NULL ->
  fst (aligned_realloc ptr alignment size h) = NULL /\
  (k < UINT_WIDTH ->
   snd (aligned_realloc ptr alignment size h) =
     free (fst reserved) (snd attempt)) /\
  (UINT_WIDTH <= k -> snd (aligned_realloc ptr alignment size h) = h).
Proof.
  intros Hptr Hsize Hk alignment reserved attempt Hres Hatt.
  subst alignment reserved attempt.
  destruct (aligned_alloc (2 ^ k) size h) as [new h1] eqn:Enew.
  cbn [fst snd] in *.
  destruct (realloc ptr size h1) as [att h2] eqn:Eatt.
  cbn [fst snd] in *. subst att.
  destruct (Z.lt_ge_cases k UINT_WIDTH) as [Hlow|Hhigh].
  - rewrite (failed_attempt_path ptr (2 ^ k) size h new h1 h2); auto.
    + cbn [fst snd]. split; [reflexivity|]. split; [reflexivity|]. lia.
    + apply popcount_pow2. lia.
  - rewrite refused_alignment_path; auto.
    + cbn [fst snd]. split; [reflexivity|]. split; [lia|reflexivity].
    + rewrite popcount_pow2_high by assumption. discriminate.
Qed.

(** C10: [is_aligned] answers [true] for the null pointer at every
    log-alignment, so in [aligned_realloc] a plain reallocation that returned
    [NULL] takes the branch of the already-aligned result: the reservation
    is freed and the attempt, [NULL], is returned. *)
Theorem null_is_aligned :
  (forall k : Z, is_aligned NULL k = true) /\
  (forall (ptr alignment size new : Z) (h h1 h2 : heap),
     ptr <> NULL -> size <> 0 ->
     __builtin_popcount alignment = 1 ->
     aligned_alloc alignment size h = (new, h1) ->
     new <> NULL ->
     realloc ptr size h1 = (NULL, h2) ->
     is_aligned (fst (realloc ptr size h1)) (__builtin_ctz alignment) = true /\
     aligned_realloc ptr alignment size h = (NULL, free new h2)).
Proof.
  split.
  - intros k. unfold is_aligned. apply null_passes_any_mask.
  - intros ptr alignment size new h h1 h2 Hptr Hsize Hpop Hnew Hnz Hatt.
    split.
    + rewrite Hatt. cbn [fst]. unfold is_aligned. apply null_passes_any_mask.
    + now apply failed_attempt_path with (h1 := h1).
Qed.

End StdLib.

Lemma failed_attempt_fails_and_releases_witness :
  let h := {| answers := [8192; NULL]; calls := [] |} in
  fst (aligned_realloc 4096 (2 ^ 4) 64 h) = NULL /\
  (4 < UINT_WIDTH ->
   snd (aligned_realloc 4096 (2 ^ 4) 64 h) =
     {| answers := [];
        calls := [Call_aligned_alloc 16 64; Call_realloc 4096 64;
                  Call_free 8192] |}) /\
  (UINT_WIDTH <= 4 -> snd (aligned_realloc 4096 (2 ^ 4) 64 h) = h).
Proof.
  intros h.
  assert (Hk : 0 <= 4 < UINTPTR_WIDTH) by (unfold UINTPTR_WIDTH; lia).
  assert (Hres : fst (aligned_alloc (2 ^ 4) 64 h) <> NULL) by discriminate.
  pose proof (failed_attempt_fails_and_releases 4096 4 64 h
                ltac:(discriminate) ltac:(discriminate) Hk Hres eq_refl) as T.
  vm_compute in T. vm_compute. exact T.
Defined.

Lemma null_is_aligned_witness :
  let h := {| answers := [8192; NULL]; calls := [] |} in
  let h1 := {| answers := [NULL]; calls := [Call_aligned_alloc 16 64] |} in
  let h2 := {| answers := [];
               calls := [Call_aligned_alloc 16 64; Call_realloc 4096 64] |} in
  is_aligned NULL 4 = true /\
  is_aligned (fst (realloc 4096 64 h1)) (__builtin_ctz 16) = true /\
  aligned_realloc 4096 16 64 h = (NULL, free 8192 h2).
Proof.
  intros h h1 h2.
  destruct (null_is_aligned (heap := script)) as [Hnull Hpath].
  split; [apply Hnull|].
  apply (Hpath 4096 16 64 8192 h h1 h2).
  - discriminate.
  - discriminate.
  - reflexivity.
  - reflexivity.
  - discriminate.
  - reflexivity.
Defined.

End AlignedFacts.

(* ================================================================== *)
(** ** Alignment arithmetic: rounding laws *)

Module AlignmentLaws.

Import Alignment WordFacts AlignmentFacts.

(** A multiple of [2^k] written with its quotient. *)
Lemma multiple_form m k : 0 <= k -> m mod 2 ^ k = 0 -> m = 2 ^ k * (m / 2 ^ k).
Proof.
  intros Hk Hm. pose proof (pow2_pos k Hk).
  pose proof (Z.div_mod m (2 ^ k)). lia.
Qed.

Lemma round_down_multiple x k : 0 <= k -> (x - x mod 2 ^ k) mod 2 ^ k = 0.
Proof.
  intros Hk. pose proof (pow2_pos k Hk) as Hp.
  rewrite Zminus_mod_idemp_r, Z.sub_diag. apply Z.mod_0_l. lia.
Qed.

(** What [alignUp] returns is a multiple of the alignment even when the sum
    wraps. *)
Lemma round_up_multiple x k : 0 <= k <= UINTPTR_WIDTH ->
  wrap (x - x mod 2 ^ k + 2 ^ k) mod 2 ^ k = 0.
Proof.
  intros Hk. pose proof (pow2_pos k (proj1 Hk)) as Hp.
  unfold wrap. rewrite (pow2_split k Hk).
  rewrite Z.rem_mul_r by (try apply pow2_pos; lia).
  rewrite Z.mul_comm, Z.mod_add by lia.
  rewrite Z.mod_mod by lia.
  rewrite <- Z.add_mod_idemp_r, Z.mod_same, Z.add_0_r by lia.
  now apply round_down_multiple.
Qed.

(** X1: [alignDown x p] is the largest multiple of [p] that is not above
    [x], as its documentation says. *)
Theorem alignDown_greatest_multiple (x k : Z) :
  word x -> 0 <= k < UINT_WIDTH ->
  exists d,
    alignDown x (2 ^ k) = Some d /\
    d mod 2 ^ k = 0 /\
    0 <= d <= x /\
    (forall m, m mod 2 ^ k = 0 -> m <= x -> m <= d).
Proof.
  intros Hx Hk. exists (x - x mod 2 ^ k).
  assert (Hp : 0 < 2 ^ k) by (apply pow2_pos; lia).
  pose proof (Z.mod_pos_bound x (2 ^ k) Hp) as Hm.
  split; [now apply alignDown_value|].
  split; [apply round_down_multiple; lia|].
  split.
  - unfold word in Hx. pose proof (Z.div_mod x (2 ^ k)).
    pose proof (Z.div_pos x (2 ^ k)). nia.
  - intros m Hmul Hle.
    rewrite (multiple_form m k) by (assumption || lia).
    assert (Hq : m / 2 ^ k <= x / 2 ^ k) by (apply Z.div_le_mono; lia).
    pose proof (Z.div_mod x (2 ^ k)). nia.
Qed.

Lemma alignDown_greatest_multiple_witness :
  exists d,
    alignDown 13 (2 ^ 2) = Some d /\
    d mod 2 ^ 2 = 0 /\
    0 <= d <= 13 /\
    (forall m, m mod 2 ^ 2 = 0 -> m <= 13 -> m <= d).
Proof.
  apply (alignDown_greatest_multiple 13 2).
  - unfold word, UINTPTR_WIDTH. lia.
  - unfold UINT_WIDTH. lia.
Defined.

(** X2: when the rounded value is an address ([x <= 2^64 - p]),
    [alignUp x p] is the smallest multiple of [p] that is not below [x], as
    its documentation says. *)
Theorem alignUp_least_multiple (x k : Z) :
  word x -> 0 <= k < UINT_WIDTH ->
  x <= 2 ^ UINTPTR_WIDTH - 2 ^ k ->
  exists u,
    alignUp x (2 ^ k) = Some u /\
    u mod 2 ^ k = 0 /\
    x <= u /\
    (forall m, m mod 2 ^ k = 0 -> x <= m -> u <= m).
Proof.
  intros Hx Hk Hfit.
  assert (Hp : 0 < 2 ^ k) by (apply pow2_pos; lia).
  pose proof (Z.mod_pos_bound x (2 ^ k) Hp) as Hm.
  eexists. split; [now apply alignUp_value|].
  unfold word in Hx.
  destruct (Z.eqb_spec (x mod 2 ^ k) 0) as [E|E].
  - split; [assumption|]. split; [lia|]. intros m _ Hle. exact Hle.
  - rewrite wrap_small by lia.
    split.
    { rewrite <- Z.add_mod_idemp_r, Z.mod_same, Z.add_0_r by lia.
      apply round_down_multiple. lia. }
    split; [lia|].
    intros m Hmul Hle.
    rewrite (multiple_form m k) by (assumption || lia).
    assert (Hq : x / 2 ^ k < m / 2 ^ k).
    { apply Z.div_lt_upper_bound; [lia|].
      rewrite (multiple_form m k) in Hle by (assumption || lia).
      pose proof (Z.div_mod x (2 ^ k)).
      destruct (Z.lt_ge_cases (x / 2 ^ k) (m / 2 ^ k)) as [|Hge]; [nia|].
      exfalso. nia. }
    pose proof (Z.div_mod x (2 ^ k)). nia.
Qed.

Lemma alignUp_least_multiple_witness :
  exists u,
    alignUp 13 (2 ^ 2) = Some u /\
    u mod 2 ^ 2 = 0 /\
    13 <= u /\
    (forall m, m mod 2 ^ 2 = 0 -> 13 <= m -> u <= m).
Proof.
  apply (alignUp_least_multiple 13 2).
  - unfold word, UINTPTR_WIDTH. lia.
  - unfold UINT_WIDTH. lia.
  - unfold UINTPTR_WIDTH. lia.
Defined.

(** X3: the results of both functions are fixed points of both functions:
    rounding an already rounded value, up or down, changes nothing. *)
Theorem align_results_are_fixed_points (x k : Z) :
  word x -> 0 <= k < UINT_WIDTH ->
  exists u d,
    alignUp x (2 ^ k) = Some u /\
    alignDown x (2 ^ k) = Some d /\
    alignUp u (2 ^ k) = Some u /\
    alignDown u (2 ^ k) = Some u /\
    alignUp d (2 ^ k) = Some d /\
    alignDown d (2 ^ k) = Some d.
Proof.
  intros Hx Hk.
  assert (Hp : 0 < 2 ^ k) by (apply pow2_pos; lia).
  pose proof (Z.mod_pos_bound x (2 ^ k) Hp) as Hm.
  assert (Hk64 : 0 <= k <= UINTPTR_WIDTH)
    by (unfold UINT_WIDTH, UINTPTR_WIDTH in *; lia).
  assert (Hfix : forall v, word v -> v mod 2 ^ k = 0 ->
            alignUp v (2 ^ k) = Some v /\ alignDown v (2 ^ k) = Some v).
  { intros v Hv Hmul. split.
    - rewrite alignUp_value by assumption. now rewrite Hmul.
    - rewrite alignDown_value by assumption. now rewrite Hmul, Z.sub_0_r. }
  assert (Hd : word (x - x mod 2 ^ k)).
  { unfold word in *. pose proof (Z.mod_le x (2 ^ k)). lia. }
  assert (Hu : word (if x mod 2 ^ k =? 0 then x
                     else wrap (x - x mod 2 ^ k + 2 ^ k))).
  { destruct (x mod 2 ^ k =? 0); [assumption | apply wrap_range]. }
  assert (Hum : (if x mod 2 ^ k =? 0 then x
                 else wrap (x - x mod 2 ^ k + 2 ^ k)) mod 2 ^ k = 0).
  { destruct (Z.eqb_spec (x mod 2 ^ k) 0) as [E|E];
      [assumption | now apply round_up_multiple]. }
  eexists. eexists.
  split; [now apply alignUp_value|].
  split; [now apply alignDown_value|].
  destruct (Hfix _ Hu Hum) as [Hu1 Hu2].
  destruct (Hfix _ Hd (round_down_multiple x k (proj1 Hk))) as [Hd1 Hd2].
  repeat split; assumption.
Qed.

Lemma align_results_are_fixed_points_witness :
  exists u d,
    alignUp 13 (2 ^ 2) = Some u /\
    alignDown 13 (2 ^ 2) = Some d /\
    alignUp u (2 ^ 2) = Some u /\
    alignDown u (2 ^ 2) = Some u /\
    alignUp d (2 ^ 2) = Some d /\
    alignDown d (2 ^ 2) = Some d.
Proof.
  apply (align_results_are_fixed_points 13 2).
  - unfold word, UINTPTR_WIDTH. lia.
  - unfold UINT_WIDTH. lia.
Defined.

(** X4: above the last multiple of [p] that is an address, the sum in
    [alignUp] leaves the address type: for every [x] that is not a multiple
    of [p] and lies above [2^64 - p] the result is [0]. *)
Theorem alignUp_wraps_to_zero (x k : Z) :
  word x -> 0 <= k < UINT_WIDTH ->
  2 ^ UINTPTR_WIDTH - 2 ^ k < x ->
  alignUp x (2 ^ k) = Some 0.
Proof.
  intros Hx Hk Htop.
  assert (Hp : 0 < 2 ^ k) by (apply pow2_pos; lia).
  assert (Hk64 : 0 <= k <= UINTPTR_WIDTH)
    by (unfold UINT_WIDTH, UINTPTR_WIDTH in *; lia).
  pose proof (Z.mod_pos_bound x (2 ^ k) Hp) as Hm.
  pose proof (Z.div_mod x (2 ^ k)) as Hdm.
  pose proof (pow2_split k Hk64) as Hsplit.
  assert (HP : 0 < 2 ^ (UINTPTR_WIDTH - k)) by (apply pow2_pos; lia).
  unfold word in Hx.
  assert (Hq : x / 2 ^ k = 2 ^ (UINTPTR_WIDTH - k) - 1) by nia.
  rewrite Hq, Z.mul_sub_distr_l, <- Hsplit, Z.mul_1_r in Hdm.
  rewrite alignUp_value by assumption.
  destruct (Z.eqb_spec (x mod 2 ^ k) 0) as [E|E]; [exfalso; lia|].
  f_equal. replace (x - x mod 2 ^ k + 2 ^ k) with (2 ^ UINTPTR_WIDTH) by lia.
  reflexivity.
Qed.

Lemma alignUp_wraps_to_zero_witness :
  alignUp 18446744073709551609 (2 ^ 3) = Some 0.
Proof.
  apply (alignUp_wraps_to_zero 18446744073709551609 3).
  - unfold word, UINTPTR_WIDTH. lia.
  - unfold UINT_WIDTH. lia.
  - unfold UINTPTR_WIDTH. lia.
Defined.

(** X5: the assertion of both functions counts the bits of the alignment
    after its conversion to [unsigned int]: a zero alignment and every
    power of two from [2^32] on abort, whatever the value to align. *)
Theorem align_assertion_rejects (x k : Z) :
  UINT_WIDTH <= k ->
  alignUp x 0 = None /\ alignDown x 0 = None /\
  alignUp x (2 ^ k) = None /\ alignDown x (2 ^ k) = None.
Proof.
  intros Hk. unfold alignUp, alignDown, c_assert.
  rewrite popcount_pow2_high by assumption.
  repeat split.
Qed.

Lemma align_assertion_rejects_witness :
  alignUp 8 0 = None /\ alignDown 8 0 = None /\
  alignUp 8 (2 ^ 32) = None /\ alignDown 8 (2 ^ 32) = None.
Proof.
  apply (align_assertion_rejects 8 32). unfold UINT_WIDTH. lia.
Defined.

End AlignmentLaws.

(* ================================================================== *)
(** ** Tagged pointers: what the masks and [setTag] do *)

Module TagsLaws.

Import Tags WordFacts TagsFacts.

Section Platform.

Variable t : Z.
Hypothesis Ht : 0 <= t < UINT_WIDTH.

Lemma unTag_ldiff w : word w -> unTag (2 ^ t) w = Z.ldiff w (Z.ones t).
Proof.
  intros Hw. unfold unTag. rewrite ptrmask_value by assumption.
  unfold u_not. rewrite land_wrap_r by assumption.
  now rewrite <- Z.ldiff_land.
Qed.

Lemma getTag_land w : getTag (2 ^ t) w = Z.land w (Z.ones t).
Proof. unfold getTag. now rewrite bitsmask_value. Qed.

Lemma unTag_small w : 0 <= w < 2 ^ t -> unTag (2 ^ t) w = 0.
Proof.
  intros Hw.
  assert (Hle : 2 ^ t < 2 ^ UINTPTR_WIDTH)
    by (apply Z.pow_lt_mono_r; unfold UINT_WIDTH, UINTPTR_WIDTH in *; lia).
  rewrite unTag_value by (assumption || (unfold word; lia)).
  rewrite Z.mod_small by lia. lia.
Qed.

(** X6: [unTag] and [getTag] split a word into two parts that share no bit
    and together give the word back: the pointer part is a multiple of
    [2^t], the tag part is below [2^t]. *)
Theorem unTag_getTag_partition (w : Z) :
  word w ->
  unTag (2 ^ t) w + getTag (2 ^ t) w = w /\
  Z.lor (unTag (2 ^ t) w) (getTag (2 ^ t) w) = w /\
  Z.land (unTag (2 ^ t) w) (getTag (2 ^ t) w) = 0 /\
  unTag (2 ^ t) w mod 2 ^ t = 0 /\
  0 <= getTag (2 ^ t) w < 2 ^ t.
Proof.
  intros Hw.
  assert (Hp : 0 < 2 ^ t) by (apply pow2_pos; lia).
  split; [|split; [|split; [|split]]].
  - rewrite unTag_value, getTag_value by assumption. lia.
  - rewrite unTag_ldiff, getTag_land by assumption. apply Z.lor_ldiff_and.
  - rewrite unTag_ldiff, getTag_land by assumption.
    rewrite (Z.land_comm w), Z.land_assoc, Z.land_ldiff. apply Z.land_0_l.
  - rewrite unTag_value by assumption.
    rewrite Zminus_mod_idemp_r, Z.sub_diag. apply Z.mod_0_l. lia.
  - rewrite getTag_value by assumption. now apply Z.mod_pos_bound.
Qed.

(** X7: when its assertion passes, [setTag] with a tag below [2^t] leaves
    the pointer part as it is and or-s the tag into the tag part; on a word
    that carries no tag yet, the tag read back is the tag given. *)
Theorem setTag_keeps_pointer_bits (tp tag v : Z) :
  word tp -> 0 <= tag < 2 ^ t ->
  setTag (2 ^ t) tp tag = Some v ->
  unTag (2 ^ t) v = unTag (2 ^ t) tp /\
  getTag (2 ^ t) v = Z.lor (getTag (2 ^ t) tp) tag /\
  (getTag (2 ^ t) tp = 0 -> getTag (2 ^ t) v = tag).
Proof.
  intros Hw Htag Hset.
  assert (Hg : getTag (2 ^ t) v = Z.lor (getTag (2 ^ t) tp) tag)
    by (now apply getTag_setTag).
  split; [|split].
  - unfold setTag, c_assert in Hset.
    destruct (Z.land tag _ =? 0); [|discriminate].
    injection Hset as <-. unfold unTag. rewrite Z.land_lor_distr_l.
    fold (unTag (2 ^ t) tp). fold (unTag (2 ^ t) tag).
    rewrite (unTag_small tag) by assumption. apply Z.lor_0_r.
  - exact Hg.
  - intros Hclean. rewrite Hg, Hclean. apply Z.lor_0_l.
Qed.

(** X8: the assertion of [setTag] masks the tag with the {e number} of tag
    bits.  So the tag whose value is that number, which is below [2^t], is
    refused on every platform that has a tag bit; and the all-ones tag is
    refused too. *)
Theorem setTag_refuses_valid_tags (tp : Z) :
  0 < t ->
  (0 <= t < 2 ^ t /\ setTag (2 ^ t) tp t = None) /\
  (0 <= Z.ones t < 2 ^ t /\ setTag (2 ^ t) tp (Z.ones t) = None).
Proof.
  intros Hpos.
  assert (Hlt : t < 2 ^ t) by (apply Z.pow_gt_lin_r; lia).
  unfold setTag, c_assert. rewrite tagbits_value by assumption.
  split.
  - split; [lia|]. rewrite Z.land_diag.
    replace (t =? 0) with false by (symmetry; apply Z.eqb_neq; lia).
    reflexivity.
  - rewrite Z.ones_equiv. split; [lia|].
    rewrite <- Z.ones_equiv, Z.land_comm, Z.land_ones by lia.
    rewrite Z.mod_small by lia.
    replace (t =? 0) with false by (symmetry; apply Z.eqb_neq; lia).
    reflexivity.
Qed.

(** X9: [to_tagged_ptr] returns only for addresses below [2^t]; with a tag
    below [2^t] the word it then returns is the or of the two and unwraps to
    the null pointer.  Unwrapping gives the packed pointer back only when
    that pointer is [NULL]. *)
Theorem to_tagged_ptr_returns_only_below (ptr tag v : Z) :
  word ptr -> 0 <= tag < 2 ^ t ->
  to_tagged_ptr (2 ^ t) ptr tag = Some v ->
  ptr < 2 ^ t /\
  v = Z.lor ptr tag /\
  unTag (2 ^ t) v = NULL /\
  (unTag (2 ^ t) v = ptr <-> ptr = NULL).
Proof.
  intros Hw Htag. unfold to_tagged_ptr, c_assert.
  rewrite is_taggable_value by assumption.
  destruct (Z.ltb_spec ptr (2 ^ t)) as [Hlt|Hge]; [|discriminate].
  unfold setTag, c_assert.
  destruct (Z.land tag _ =? 0); [|discriminate].
  intros [= <-].
  assert (Hun : unTag (2 ^ t) (Z.lor ptr tag) = NULL).
  { unfold unTag. rewrite Z.land_lor_distr_l.
    fold (unTag (2 ^ t) ptr). fold (unTag (2 ^ t) tag).
    unfold word in Hw.
    rewrite (unTag_small ptr), (unTag_small tag) by lia. reflexivity. }
  split; [assumption|]. split; [reflexivity|]. split; [assumption|].
  rewrite Hun. split; intros E; now symmetry.
Qed.

End Platform.

Lemma unTag_getTag_partition_witness :
  unTag (2 ^ 4) 4099 + getTag (2 ^ 4) 4099 = 4099 /\
  Z.lor (unTag (2 ^ 4) 4099) (getTag (2 ^ 4) 4099) = 4099 /\
  Z.land (unTag (2 ^ 4) 4099) (getTag (2 ^ 4) 4099) = 0 /\
  unTag (2 ^ 4) 4099 mod 2 ^ 4 = 0 /\
  0 <= getTag (2 ^ 4) 4099 < 2 ^ 4.
Proof.
  apply (unTag_getTag_partition 4).
  - unfold UINT_WIDTH. lia.
  - unfold word, UINTPTR_WIDTH. lia.
Defined.

Lemma setTag_keeps_pointer_bits_witness :
  unTag (2 ^ 4) 4099 = unTag (2 ^ 4) 4097 /\
  getTag (2 ^ 4) 4099 = Z.lor (getTag (2 ^ 4) 4097) 2 /\
  (getTag (2 ^ 4) 4097 = 0 -> getTag (2 ^ 4) 4099 = 2).
Proof.
  apply (setTag_keeps_pointer_bits 4).
  - unfold UINT_WIDTH. lia.
  - unfold word, UINTPTR_WIDTH. lia.
  - lia.
  - reflexivity.
Defined.

Lemma setTag_refuses_valid_tags_witness :
  (0 <= 4 < 2 ^ 4 /\ setTag (2 ^ 4) 4096 4 = None) /\
  (0 <= Z.ones 4 < 2 ^ 4 /\ setTag (2 ^ 4) 4096 (Z.ones 4) = None).
Proof.
  apply (setTag_refuses_valid_tags 4).
  - unfold UINT_WIDTH. lia.
  - lia.
Defined.

Lemma to_tagged_ptr_returns_only_below_witness :
  8 < 2 ^ 4 /\
  10 = Z.lor 8 2 /\
  unTag (2 ^ 4) 10 = NULL /\
  (unTag (2 ^ 4) 10 = 8 <-> 8 = NULL).
Proof.
  apply (to_tagged_ptr_returns_only_below 4) with (tag := 2).
  - unfold UINT_WIDTH. lia.
  - unfold word, UINTPTR_WIDTH. lia.
  - lia.
  - reflexivity.
Defined.

End TagsLaws.

(* ================================================================== *)
(** ** Slices: bounds, and how the two mutators compose *)

Module SliceLaws.

Import Slice WordFacts SliceFacts.

(** Offsets add up in address arithmetic. *)
Lemma u_add_offsets p e n i :
  u_add (u_add p (u_mul e n)) (u_mul e i) = u_add p (u_mul e (n + i)).
Proof.
  unfold u_add, u_mul, wrap.
  set (M := 2 ^ UINTPTR_WIDTH).
  rewrite (Zplus_mod_idemp_r (e * (n + i)) p M).
  rewrite (Zplus_mod_idemp_l (p + (e * n) mod M) ((e * i) mod M) M).
  rewrite (Zplus_mod_idemp_r (e * i) (p + (e * n) mod M) M).
  replace (p + (e * n) mod M + e * i) with (p + e * i + (e * n) mod M) by lia.
  rewrite (Zplus_mod_idemp_r (e * n) (p + e * i) M).
  f_equal. lia.
Qed.

Lemma u_sub_small a b : word a -> 0 <= b <= a -> u_sub a b = a - b.
Proof.
  intros Ha Hb. unfold u_sub. apply wrap_small. unfold word in Ha. lia.
Qed.

(** X10: for a slice that lies inside the address space, [_larr_addrof] at
    an index below the length is the start plus [elemSize * index], and the
    whole element lies between the start and the end of the slice; at an
    index from the length on it is [NULL]. *)
Theorem addrof_within_slice (a : _larr) (index elemSize : Z) :
  word (arr a) -> 0 <= elemSize -> 0 <= index ->
  arr a + elemSize * len a <= 2 ^ UINTPTR_WIDTH ->
  (index < len a ->
   _larr_addrof a index elemSize = arr a + elemSize * index /\
   arr a <= _larr_addrof a index elemSize /\
   _larr_addrof a index elemSize + elemSize <= arr a + elemSize * len a) /\
  (len a <= index -> _larr_addrof a index elemSize = NULL).
Proof.
  intros Harr Hes Hidx Hfit. unfold _larr_addrof, word in *. split.
  - intros Hin.
    replace (index <? len a) with true by (symmetry; now apply Z.ltb_lt).
    assert (Hoff : 0 <= elemSize * index) by nia.
    assert (Hend : elemSize * index + elemSize <= elemSize * len a) by nia.
    assert (Hlt : arr a + elemSize * index < 2 ^ UINTPTR_WIDTH).
    { destruct (Z.eq_dec elemSize 0) as [->|Hnz]; lia. }
    unfold u_add, u_mul.
    rewrite (wrap_small (elemSize * index)) by lia.
    rewrite wrap_small by lia. lia.
  - intros Hout.
    replace (index <? len a) with false by (symmetry; now apply Z.ltb_ge).
    reflexivity.
Qed.

Lemma addrof_within_slice_witness :
  let a := _larr_mk 5 4096 in
  (2 < len a ->
   _larr_addrof a 2 4 = arr a + 4 * 2 /\
   arr a <= _larr_addrof a 2 4 /\
   _larr_addrof a 2 4 + 4 <= arr a + 4 * len a) /\
  (len a <= 2 -> _larr_addrof a 2 4 = NULL).
Proof.
  apply (addrof_within_slice (_larr_mk 5 4096) 2 4).
  - unfold word, UINTPTR_WIDTH. cbn. lia.
  - lia.
  - lia.
  - unfold UINTPTR_WIDTH. cbn. lia.
Defined.

(** X11: after [_larr_advance] by [n <= len] elements, every index [i] of
    the advanced slice answers as index [n + i] of the original did, in
    bounds and out of bounds. *)
Theorem advance_shifts_indices (a : _larr) (n i elemSize : Z) :
  word (len a) -> 0 <= n <= len a -> 0 <= i ->
  n + i < 2 ^ UINTPTR_WIDTH ->
  _larr_addrof (_larr_advance a n elemSize) i elemSize =
  _larr_addrof a (n + i) elemSize.
Proof.
  intros Hl Hn Hi Hsum. unfold _larr_advance, _larr_addrof. cbn [len arr].
  rewrite clamp_min, Z.min_l by lia.
  rewrite u_sub_small by (assumption || lia).
  destruct (Z.ltb_spec (n + i) (len a)) as [Hin|Hout].
  - replace (i <? len a - n) with true by (symmetry; apply Z.ltb_lt; lia).
    apply u_add_offsets.
  - replace (i <? len a - n) with false by (symmetry; apply Z.ltb_ge; lia).
    reflexivity.
Qed.

Lemma advance_shifts_indices_witness :
  _larr_addrof (_larr_advance (_larr_mk 5 4096) 2 4) 1 4 =
  _larr_addrof (_larr_mk 5 4096) (2 + 1) 4.
Proof.
  apply (advance_shifts_indices (_larr_mk 5 4096) 2 1 4).
  - unfold word, UINTPTR_WIDTH. cbn. lia.
  - cbn. lia.
  - lia.
  - unfold UINTPTR_WIDTH. lia.
Defined.

(** X12: [_larr_shrink] drops [min n len] elements from the back: the
    length becomes [max 0 (len - n)], the pointer stays, the indices that
    remain keep their addresses and the dropped ones answer [NULL]. *)
Theorem shrink_spec (a : _larr) (n elemSize : Z) :
  word (len a) -> word n ->
  let a' := _larr_shrink a n in
  len a' = Z.max 0 (len a - n) /\
  arr a' = arr a /\
  (forall i, i < len a - n ->
             _larr_addrof a' i elemSize = _larr_addrof a i elemSize) /\
  (forall i, 0 <= i -> len a - n <= i -> _larr_addrof a' i elemSize = NULL).
Proof.
  intros Hl Hn a'. subst a'. unfold _larr_shrink. rewrite clamp_min.
  unfold word in Hn.
  assert (Hlen : u_sub (len a) (Z.min n (len a)) = Z.max 0 (len a - n)).
  { rewrite u_sub_small by (assumption || (unfold word in Hl; lia)).
    unfold word in Hl. lia. }
  cbn [len arr]. split; [exact Hlen|]. split; [reflexivity|].
  unfold _larr_addrof. cbn [len arr]. rewrite Hlen. split.
  - intros i Hi.
    replace (i <? Z.max 0 (len a - n)) with (i <? len a); [reflexivity|].
    destruct (Z.ltb_spec i (len a)), (Z.ltb_spec i (Z.max 0 (len a - n)));
      try reflexivity; lia.
  - intros i Hi0 Hi.
    replace (i <? Z.max 0 (len a - n)) with false; [reflexivity|].
    symmetry. apply Z.ltb_ge. lia.
Qed.

Lemma shrink_spec_witness :
  let a := _larr_mk 5 4096 in
  let a' := _larr_shrink a 2 in
  len a' = Z.max 0 (len a - 2) /\
  arr a' = arr a /\
  (forall i, i < len a - 2 -> _larr_addrof a' i 4 = _larr_addrof a i 4) /\
  (forall i, 0 <= i -> len a - 2 <= i -> _larr_addrof a' i 4 = NULL).
Proof.
  apply (shrink_spec (_larr_mk 5 4096) 2 4).
  - unfold word, UINTPTR_WIDTH. cbn. lia.
  - unfold word, UINTPTR_WIDTH. lia.
Defined.

(** X13: two advances in a row are one advance by the sum (as long as the
    sum is a [size_t]). *)
Theorem advance_twice (a : _larr) (n m elemSize : Z) :
  word (len a) -> 0 <= n -> 0 <= m -> n + m < 2 ^ UINTPTR_WIDTH ->
  _larr_advance (_larr_advance a n elemSize) m elemSize =
  _larr_advance a (n + m) elemSize.
Proof.
  intros Hl Hn Hm Hsum. unfold _larr_advance. cbn [len arr].
  rewrite !clamp_min.
  assert (H1 : u_sub (len a) (Z.min n (len a)) = len a - Z.min n (len a))
    by (apply u_sub_small; [assumption | unfold word in Hl; lia]).
  rewrite H1.
  assert (Hc : Z.min n (len a) + Z.min m (len a - Z.min n (len a))
               = Z.min (n + m) (len a)) by (unfold word in Hl; lia).
  f_equal.
  - rewrite !u_sub_small; unfold word in *; lia.
  - rewrite u_add_offsets. now rewrite Hc.
Qed.

Lemma advance_twice_witness :
  _larr_advance (_larr_advance (_larr_mk 5 4096) 2 4) 4 4 =
  _larr_advance (_larr_mk 5 4096) (2 + 4) 4.
Proof.
  apply (advance_twice (_larr_mk 5 4096) 2 4 4).
  - unfold word, UINTPTR_WIDTH. cbn. lia.
  - lia.
  - lia.
  - unfold UINTPTR_WIDTH. lia.
Defined.

(** X14: dropping [n] elements from the front and [m] from the back can be
    done in either order when the slice has that many elements; the result
    has [len - n - m] elements. *)
Theorem advance_shrink_commute (a : _larr) (n m elemSize : Z) :
  word (len a) -> 0 <= n -> 0 <= m -> n + m <= len a ->
  _larr_advance (_larr_shrink a m) n elemSize =
  _larr_shrink (_larr_advance a n elemSize) m /\
  len (_larr_advance (_larr_shrink a m) n elemSize) = len a - n - m.
Proof.
  intros Hl Hn Hm Hsum. unfold _larr_advance, _larr_shrink. cbn [len arr].
  rewrite !clamp_min.
  rewrite (Z.min_l m (len a)), (Z.min_l n (len a)) by lia.
  rewrite (u_sub_small (len a) m), (u_sub_small (len a) n)
    by (assumption || lia).
  rewrite (Z.min_l n (len a - m)), (Z.min_l m (len a - n)) by lia.
  rewrite !u_sub_small by (unfold word in *; lia).
  split; [f_equal; lia | lia].
Qed.

Lemma advance_shrink_commute_witness :
  _larr_advance (_larr_shrink (_larr_mk 5 4096) 1) 2 4 =
  _larr_shrink (_larr_advance (_larr_mk 5 4096) 2 4) 1 /\
  len (_larr_advance (_larr_shrink (_larr_mk 5 4096) 1) 2 4) = 5 - 2 - 1.
Proof.
  apply (advance_shrink_commute (_larr_mk 5 4096) 2 1 4).
  - unfold word, UINTPTR_WIDTH. cbn. lia.
  - lia.
  - lia.
  - cbn. lia.
Defined.

End SliceLaws.

(* ================================================================== *)
(** ** Growable buffers: push, pop, peek, deinit and init *)

Module BufferLaws.

Import Alloc Libc Buffer WordFacts.

Section Engine.

Context {heap : Type} `{Libc heap}.

Variable mem : alloc_t heap.

Lemma size_max_half : SIZE_MAX / 2 = 9223372036854775807.
Proof. reflexivity. Qed.

(** The last step of [_dynarr_push], on the structure [a] it has got to. *)
Lemma pop_after_tail a elemSize n :
  0 <= n -> n + 1 < 2 ^ UINTPTR_WIDTH ->
  _dynarr_pop (set_len a (u_add n 1)) elemSize =
    (u_add (buf a) (u_mul elemSize n), set_len a n) /\
  _dynarr_peek (set_len a (u_add n 1)) elemSize =
    u_add (buf a) (u_mul elemSize n).
Proof.
  intros Hn Hfit.
  assert (Hn1 : u_add n 1 = n + 1) by (apply wrap_small; lia).
  assert (Hback : u_sub (n + 1) 1 = n).
  { unfold u_sub. replace (n + 1 - 1) with n by lia. apply wrap_small. lia. }
  unfold _dynarr_pop, _dynarr_peek, set_len. cbn [len buf cap].
  rewrite Hn1, Hback.
  replace (n + 1 =? 0) with false by (symmetry; apply Z.eqb_neq; lia).
  split; reflexivity.
Qed.

(** X15: after a successful [_dynarr_push] the length is one more, [peek]
    and [pop] both return the slot the element was copied to (slot [len] of
    the storage as it is after the push), [pop] brings the length back, and
    if the buffer was not full the structure after [pop] is the one before
    the push. *)
Theorem push_then_pop (arr : _dynarr) (elem elemSize : Z) (h : heap)
  (arr' : _dynarr) (h' : heap) :
  word (cap arr) -> 0 <= len arr <= cap arr ->
  _dynarr_push mem arr elem elemSize h = Some (true, arr', h') ->
  let slot := u_add (buf arr') (u_mul elemSize (len arr)) in
  len arr' = len arr + 1 /\
  (exists h0, h' = memcpy slot elem elemSize h0) /\
  _dynarr_peek arr' elemSize = slot /\
  _dynarr_pop arr' elemSize = (slot, set_len arr' (len arr)) /\
  (len arr < cap arr -> snd (_dynarr_pop arr' elemSize) = arr).
Proof.
  intros Hcap Hlen. unfold _dynarr_push, c_assert, word in *.
  destruct (negb (cap arr =? 0)); [|discriminate].
  destruct (Z.eqb_spec (len arr) (cap arr)) as [Hfull|Hroom].
  - destruct (Z.geb_spec (cap arr) (SIZE_MAX / 2)) as [Hbig|Hsmall];
      [discriminate|].
    rewrite size_max_half in Hsmall.
    cbn [set_cap buf cap len].
    destruct (reallocIn mem _ _ h) as [new h1].
    destruct (buf arr =? NULL); [discriminate|].
    intros [= <- <-]. cbn zeta.
    destruct (pop_after_tail
                (set_buf {| cap := u_mul (cap arr) 2; len := len arr;
                            buf := buf arr |} new)
                elemSize (len arr)) as [Hpop Hpeek];
      [lia | rewrite two_p_64; lia |].
    cbn [set_buf set_len buf cap len] in *.
    split.
    { unfold u_add. rewrite wrap_small by (rewrite two_p_64; lia).
      reflexivity. }
    split; [eexists; reflexivity|].
    split; [exact Hpeek|]. split; [exact Hpop|]. lia.
  - intros [= <- <-]. cbn zeta.
    destruct (pop_after_tail arr elemSize (len arr)) as [Hpop Hpeek];
      [lia | lia |].
    unfold set_len in *. cbn [buf cap len] in *.
    split.
    { unfold u_add. rewrite wrap_small by lia. reflexivity. }
    split; [eexists; reflexivity|].
    split; [exact Hpeek|]. split; [exact Hpop|].
    intros _. rewrite Hpop. cbn [snd]. now destruct arr.
Qed.



(** X18: [_dynarr_pop] returns what [_dynarr_peek] returns, [NULL] on the
    empty buffer; it takes one off a non-zero length and touches neither
    the capacity nor the storage pointer. *)
Theorem pop_spec (arr : _dynarr) (elemSize : Z) :
  word (len arr) ->
  let '(p, arr') := _dynarr_pop arr elemSize in
  p = _dynarr_peek arr elemSize /\
  (len arr = 0 -> p = NULL /\ arr' = arr) /\
  (len arr <> 0 ->
   p = u_add (buf arr) (u_mul elemSize (len arr - 1)) /\
   len arr' = len arr - 1) /\
  cap arr' = cap arr /\ buf arr' = buf arr.
Proof.
  intros Hl. unfold _dynarr_pop, _dynarr_peek, word in *.
  destruct (Z.eqb_spec (len arr) 0) as [E|E].
  - split; [reflexivity|]. split; [intros _; now split|].
    split; [intros Hne; contradiction|]. now split.
  - unfold set_len. cbn [len buf cap].
    assert (Hdec : u_sub (len arr) 1 = len arr - 1) by (apply wrap_small; lia).
    rewrite Hdec.
    split; [reflexivity|]. split; [intros E0; contradiction|].
    split; [intros _; now split|]. now split.
Qed.

(** X19: [_dynarr_deinit] hands the storage to the allocator with size [0]
    and leaves the structure zeroed; on that structure [peek] and [pop]
    return [NULL], and [push] and the other operations that need a capacity
    do not work: [push] aborts on its assertion. *)
Theorem deinit_spec (arr : _dynarr) (elem elemSize : Z) (h h2 : heap) :
  let '(arr', h') := _dynarr_deinit mem arr h in
  arr' = {| cap := 0; len := 0; buf := NULL |} /\
  h' = snd (mem (buf arr) 0 h) /\
  _dynarr_peek arr' elemSize = NULL /\
  _dynarr_pop arr' elemSize = (NULL, arr') /\
  _dynarr_push mem arr' elem elemSize h2 = None.
Proof. repeat split. Qed.

(** X20: for a non-zero capacity whose product with the element size fits
    the address type, the overflow test of [_dynarr_init] does not fire:
    exactly [cap0 * size] bytes are requested and the allocator alone
    decides.  On success the buffer is empty with capacity [cap0]; on
    failure the storage pointer has been overwritten with [NULL] while
    capacity and length keep their old values. *)
Theorem init_with_fitting_product (arr : _dynarr) (cap0 size : Z) (h : heap) :
  0 < cap0 -> 0 <= size -> cap0 * size < 2 ^ UINTPTR_WIDTH ->
  let request := allocIn mem (cap0 * size) h in
  _dynarr_init mem arr cap0 size h =
    if fst request =? NULL
    then (false, {| cap := cap arr; len := len arr; buf := NULL |},
          snd request)
    else (true, {| cap := cap0; len := 0; buf := fst request |},
          snd request).
Proof.
  intros Hcap Hsize Hfit request. subst request. unfold _dynarr_init.
  replace (cap0 =? 0) with false by (symmetry; apply Z.eqb_neq; lia).
  assert (Hmul : u_mul cap0 size = cap0 * size).
  { unfold u_mul. apply wrap_small. nia. }
  rewrite Hmul.
  replace (cap0 * size <? size) with false by (symmetry; apply Z.ltb_ge; nia).
  destruct (allocIn mem (cap0 * size) h) as [p h1]. cbn [fst snd].
  cbn [set_buf set_cap set_len buf cap len].
  destruct (Z.eqb_spec p NULL) as [E|E]; [now rewrite E | reflexivity].
Qed.

(** X21: whenever [_dynarr_resize] returns [false], the buffer structure is
    exactly as it was; either the new capacity was zero and the allocator
    was not called, or the allocator was called once and returned [NULL]. *)
Theorem resize_failure_is_clean (arr : _dynarr) (newCap elemSize : Z)
  (h : heap) (arr' : _dynarr) (h' : heap) :
  _dynarr_resize mem arr newCap elemSize h = (false, arr', h') ->
  arr' = arr /\
  ((newCap = 0 /\ h' = h) \/
   (newCap <> 0 /\
    reallocIn mem (buf arr) (u_mul (cap arr) elemSize) h = (NULL, h'))).
Proof.
  unfold _dynarr_resize.
  destruct (Z.eqb_spec newCap 0) as [E|E].
  - intros [= <- <-]. split; [reflexivity|]. left. now split.
  - destruct (reallocIn mem _ _ h) as [new h1].
    destruct (Z.eqb_spec new NULL) as [En|En]; [|discriminate].
    intros [= <- <-]. split; [reflexivity|]. right. split; [assumption|].
    now rewrite En.
Qed.

End Engine.

Lemma push_then_pop_witness :
  let arr := {| cap := 4; len := 1; buf := 4096 |} in
  let arr' := {| cap := 4; len := 2; buf := 4096 |} in
  let slot := u_add (buf arr') (u_mul 8 (len arr)) in
  len arr' = len arr + 1 /\
  (exists h0, record (Call_memcpy 4104 7 8) {| answers := []; calls := [] |}
              = memcpy slot 7 8 h0) /\
  _dynarr_peek arr' 8 = slot /\
  _dynarr_pop arr' 8 = (slot, set_len arr' (len arr)) /\
  (len arr < cap arr -> snd (_dynarr_pop arr' 8) = arr).
Proof.
  apply (push_then_pop scripted_alloc {| cap := 4; len := 1; buf := 4096 |}
           7 8 {| answers := []; calls := [] |}).
  - unfold word, UINTPTR_WIDTH. cbn. lia.
  - cbn. lia.
  - reflexivity.
Defined.



Lemma pop_spec_witness :
  let arr := {| cap := 4; len := 2; buf := 4096 |} in
  let '(p, arr') := _dynarr_pop arr 8 in
  p = _dynarr_peek arr 8 /\
  (len arr = 0 -> p = NULL /\ arr' = arr) /\
  (len arr <> 0 ->
   p = u_add (buf arr) (u_mul 8 (len arr - 1)) /\ len arr' = len arr - 1) /\
  cap arr' = cap arr /\ buf arr' = buf arr.
Proof.
  apply (pop_spec {| cap := 4; len := 2; buf := 4096 |} 8).
  unfold word, UINTPTR_WIDTH. cbn. lia.
Defined.

Lemma init_with_fitting_product_witness :
  _dynarr_init scripted_alloc {| cap := 9; len := 9; buf := 4096 |} 4 8
    {| answers := []; calls := [] |} =
  (false, {| cap := 9; len := 9; buf := NULL |},
   {| answers := []; calls := [Call_realloc NULL 32] |}).
Proof.
  apply (init_with_fitting_product scripted_alloc
           {| cap := 9; len := 9; buf := 4096 |} 4 8
           {| answers := []; calls := [] |}).
  - lia.
  - lia.
  - unfold UINTPTR_WIDTH. lia.
Defined.

Lemma resize_failure_is_clean_witness :
  let arr := {| cap := 4; len := 2; buf := 4096 |} in
  let h := {| answers := []; calls := [] |} in
  let h' := {| answers := []; calls := [Call_realloc 4096 32] |} in
  arr = arr /\
  ((8 = 0 /\ h' = h) \/
   (8 <> 0 /\ reallocIn scripted_alloc (buf arr) (u_mul (cap arr) 8) h
              = (NULL, h'))).
Proof.
  apply (resize_failure_is_clean scripted_alloc
           {| cap := 4; len := 2; buf := 4096 |} 8 8
           {| answers := []; calls := [] |}).
  reflexivity.
Defined.

End BufferLaws.

(* ================================================================== *)
(** ** The aligned allocator: its paths and its interface *)

Module AlignedLaws.

Import Libc Aligned AlignedPort WordFacts.

(** X22: for a log-alignment below the word size, [is_aligned] tests that
    the address is a multiple of [2^k]. *)
Theorem is_aligned_value (p k : Z) :
  0 <= k < UINTPTR_WIDTH ->
  is_aligned p k = (p mod 2 ^ k =? 0).
Proof.
  intros Hk. unfold is_aligned, u_shl.
  rewrite Z.shiftl_1_l.
  assert (Hlt : 2 ^ k < 2 ^ UINTPTR_WIDTH) by (apply Z.pow_lt_mono_r; lia).
  pose proof (pow2_pos k (proj1 Hk)).
  rewrite (wrap_small (2 ^ k)) by lia.
  rewrite mask_ones by assumption.
  now rewrite Z.land_ones by lia.
Qed.

Lemma is_aligned_value_witness :
  is_aligned 4104 4 = (4104 mod 2 ^ 4 =? 0).
Proof.
  apply (is_aligned_value 4104 4). unfold UINTPTR_WIDTH. lia.
Defined.

Section StdLib.

Context {heap : Type} `{Libc heap}.

(** The three ways through [aligned_realloc] once the arguments have been
    accepted. *)
Lemma accepted_paths ptr k size h :
  ptr <> NULL -> size <> 0 -> 0 <= k < UINT_WIDTH ->
  let reserved := aligned_alloc (2 ^ k) size h in
  let attempt := realloc ptr size (snd reserved) in
  (fst reserved = NULL ->
   aligned_realloc ptr (2 ^ k) size h = (NULL, snd reserved)) /\
  (fst reserved <> NULL -> fst attempt mod 2 ^ k = 0 ->
   aligned_realloc ptr (2 ^ k) size h =
     (fst attempt, free (fst reserved) (snd attempt))) /\
  (fst reserved <> NULL -> fst attempt mod 2 ^ k <> 0 ->
   aligned_realloc ptr (2 ^ k) size h =
     (fst reserved,
      free (fst attempt)
        (memcpy (fst reserved) (fst attempt) size (snd attempt)))).
Proof.
  intros Hptr Hsize Hk reserved attempt. subst reserved attempt.
  unfold aligned_realloc.
  replace (ptr =? NULL) with false by (symmetry; now apply Z.eqb_neq).
  replace (size =? 0) with false by (symmetry; now apply Z.eqb_neq).
  rewrite popcount_pow2, ctz_pow2 by assumption. cbn [Z.eqb Pos.eqb negb].
  destruct (aligned_alloc (2 ^ k) size h) as [new h1]. cbn [fst snd].
  destruct (Z.eqb_spec new NULL) as [En|En].
  - split; [intros _; reflexivity|].
    split; intros Hne; contradiction.
  - split; [intros E; contradiction|].
    destruct (realloc ptr size h1) as [att h2]. cbn [fst snd].
    rewrite is_aligned_value
      by (unfold UINT_WIDTH, UINTPTR_WIDTH in *; lia).
    split; intros _ Hal.
    + replace (att mod 2 ^ k =? 0) with true
        by (symmetry; now apply Z.eqb_eq).
      reflexivity.
    + replace (att mod 2 ^ k =? 0) with false
        by (symmetry; now apply Z.eqb_neq).
      reflexivity.
Qed.

(** X23: what [aligned_realloc] does for a non-null block, a nonzero size
    and a power-of-two alignment below [2^32].  If the reservation fails,
    [NULL] is returned and [realloc] is not called, so the block is as it
    was.  If the reallocated block is a multiple of the alignment, it is
    returned and the reservation is freed.  Otherwise [size] bytes are
    copied from the reallocated block into the reservation, the
    reallocated block is freed and the reservation is returned. *)
Theorem aligned_realloc_paths (ptr k size : Z) (h : heap) :
  ptr <> NULL -> size <> 0 -> 0 <= k < UINT_WIDTH ->
  let reserved := aligned_alloc (2 ^ k) size h in
  let attempt := realloc ptr size (snd reserved) in
  (fst reserved = NULL ->
   aligned_realloc ptr (2 ^ k) size h = (NULL, snd reserved)) /\
  (fst reserved <> NULL -> fst attempt mod 2 ^ k = 0 ->
   aligned_realloc ptr (2 ^ k) size h =
     (fst attempt, free (fst reserved) (snd attempt))) /\
  (fst reserved <> NULL -> fst attempt mod 2 ^ k <> 0 ->
   aligned_realloc ptr (2 ^ k) size h =
     (fst reserved,
      free (fst attempt)
        (memcpy (fst reserved) (fst attempt) size (snd attempt)))).
Proof. exact (accepted_paths ptr k size h). Qed.

(** X24: if the C library's [aligned_alloc] returns [NULL] or a multiple of
    the alignment, so does [aligned_realloc] on a non-null block with a
    nonzero size, whatever [realloc] returns. *)
Theorem aligned_realloc_result_is_aligned (ptr k size : Z) (h : heap) :
  ptr <> NULL -> size <> 0 -> 0 <= k < UINT_WIDTH ->
  fst (aligned_alloc (2 ^ k) size h) mod 2 ^ k = 0 ->
  fst (aligned_realloc ptr (2 ^ k) size h) mod 2 ^ k = 0.
Proof.
  intros Hptr Hsize Hk Hlibc.
  destruct (accepted_paths ptr k size h Hptr Hsize Hk) as (Hnone & Hfast & Hmove).
  destruct (Z.eq_dec (fst (aligned_alloc (2 ^ k) size h)) NULL) as [E|E].
  - rewrite (Hnone E). cbn [fst]. apply Z.mod_0_l.
    pose proof (pow2_pos k (proj1 Hk)). lia.
  - destruct (Z.eq_dec
      (fst (realloc ptr size (snd (aligned_alloc (2 ^ k) size h))) mod 2 ^ k)
      0) as [Ea|Ea].
    + rewrite (Hfast E Ea). exact Ea.
    + rewrite (Hmove E Ea). exact Hlibc.
Qed.

(** X25: the interface of alloc/aligned.h over [std_aalloc].  Releasing a
    non-null block frees exactly that block.  Releasing [NULL] is not a
    no-op: it calls [aligned_alloc(1, 0)] and drops the result.  Allocating
    passes the alignment to [aligned_alloc] unchecked, power of two or
    not. *)
Theorem std_aalloc_interface (ptr alignment size : Z) (h : heap) :
  (ptr <> NULL -> afreeIn std_aalloc ptr h = free ptr h) /\
  afreeIn std_aalloc NULL h = snd (aligned_alloc 1 0 h) /\
  aallocIn std_aalloc alignment size h = aligned_alloc alignment size h /\
  (ptr <> NULL ->
   areallocIn std_aalloc ptr alignment 0 h = (NULL, free ptr h)).
Proof.
  unfold afreeIn, aallocIn, areallocIn, std_aalloc, aligned_realloc.
  cbn [Z.eqb NULL].
  split; [|split; [reflexivity|split; [reflexivity|]]].
  - intros Hptr.
    replace (ptr =? NULL) with false by (symmetry; now apply Z.eqb_neq).
    reflexivity.
  - intros Hptr.
    replace (ptr =? NULL) with false by (symmetry; now apply Z.eqb_neq).
    reflexivity.
Qed.

End StdLib.

Lemma aligned_realloc_paths_witness :
  let h := {| answers := [8192; 12296]; calls := [] |} in
  (8192 = NULL ->
   aligned_realloc 4096 (2 ^ 4) 64 h =
     (NULL, {| answers := [12296]; calls := [Call_aligned_alloc 16 64] |})) /\
  (8192 <> NULL -> 12296 mod 2 ^ 4 = 0 ->
   aligned_realloc 4096 (2 ^ 4) 64 h =
     (12296,
      {| answers := [];
         calls := [Call_aligned_alloc 16 64; Call_realloc 4096 64;
                   Call_free 8192] |})) /\
  (8192 <> NULL -> 12296 mod 2 ^ 4 <> 0 ->
   aligned_realloc 4096 (2 ^ 4) 64 h =
     (8192,
      {| answers := [];
         calls := [Call_aligned_alloc 16 64; Call_realloc 4096 64;
                   Call_memcpy 8192 12296 64; Call_free 12296] |})).
Proof.
  intros h.
  assert (Hk : 0 <= 4 < UINT_WIDTH) by (unfold UINT_WIDTH; lia).
  pose proof (aligned_realloc_paths 4096 4 64 h
                ltac:(discriminate) ltac:(discriminate) Hk) as T.
  exact T.
Defined.

Lemma aligned_realloc_result_is_aligned_witness :
  fst (aligned_realloc 4096 (2 ^ 4) 64
         {| answers := [8192; 12296]; calls := [] |}) mod 2 ^ 4 = 0.
Proof.
  apply (aligned_realloc_result_is_aligned 4096 4 64).
  - discriminate.
  - discriminate.
  - unfold UINT_WIDTH. lia.
  - reflexivity.
Defined.

Lemma std_aalloc_interface_witness :
  let h := {| answers := [8192]; calls := [] |} in
  (4096 <> NULL ->
   afreeIn std_aalloc 4096 h =
     {| answers := [8192]; calls := [Call_free 4096] |}) /\
  afreeIn std_aalloc NULL h =
    {| answers := []; calls := [Call_aligned_alloc 1 0] |} /\
  aallocIn std_aalloc 24 64 h =
    (8192, {| answers := []; calls := [Call_aligned_alloc 24 64] |}) /\
  (4096 <> NULL ->
   areallocIn std_aalloc 4096 24 0 h =
     (NULL, {| answers := [8192]; calls := [Call_free 4096] |})).
Proof.
  intros h. exact (std_aalloc_interface 4096 24 64 h).
Defined.

End AlignedLaws.

(* ================================================================== *)
(** ** The typed instances *)

Module TypedLaws.

Import Alloc Libc Buffer Slice Typed WordFacts.

Section Engine.

Context {heap : Type} `{Libc heap}.

Variable mem : alloc_t heap.

(** X26: the result of the typed [dynarr_resize] goes through a pointer
    type on its way to [bool]; that changes nothing: for every element size
    the typed function returns what [_dynarr_resize] returns. *)
Theorem typed_resize_is_engine_resize (sizeof_T : Z) (arr : _dynarr)
  (newCap : Z) (h : heap) :
  dynarr_resize sizeof_T mem arr newCap h =
  _dynarr_resize mem arr newCap sizeof_T h.
Proof.
  unfold dynarr_resize.
  destruct (_dynarr_resize mem arr newCap sizeof_T h) as [[b arr'] h'].
  now destruct b.
Qed.

(** X27: for byte buffers the product of capacity and element size is the
    capacity, so initialisation fails exactly when the capacity is zero or
    the allocator, asked for [cap0] bytes, returns [NULL]. *)
Theorem init_byte_succeeds_iff (arr : _dynarr) (cap0 : Z) (h : heap) :
  word cap0 ->
  fst (fst (dynarr_init sizeof_byte mem arr cap0 h)) = true <->
  cap0 <> 0 /\ fst (allocIn mem cap0 h) <> NULL.
Proof.
  intros Hw. unfold dynarr_init, _dynarr_init, sizeof_byte, word in *.
  assert (Hmul : u_mul cap0 1 = cap0).
  { unfold u_mul. rewrite Z.mul_1_r. now apply wrap_small. }
  rewrite Hmul.
  destruct (Z.eqb_spec cap0 0) as [E|E].
  - cbn [fst]. split; [discriminate | intros [Hne _]; contradiction].
  - replace (cap0 <? 1) with false by (symmetry; apply Z.ltb_ge; lia).
    destruct (allocIn mem cap0 h) as [p h1]. cbn [fst snd].
    cbn [set_buf set_cap set_len buf cap Buffer.len].
    destruct (Z.eqb_spec p NULL) as [Ep|Ep]; cbn [fst].
    + split; [discriminate | intros [_ Hne]; contradiction].
    + split; [intros _; now split | reflexivity].
Qed.

End Engine.

(** X28: inside a slice that lies in the address space, the byte instance
    addresses element [i] at the start plus [i], and the boxed instance, for
    whatever element type, at the start plus [i] pointer sizes. *)
Theorem typed_slice_strides (a : _larr) (i : Z) :
  word (arr a) -> 0 <= i < len a ->
  (arr a + len a <= 2 ^ UINTPTR_WIDTH ->
   larr_addrof sizeof_byte a i = arr a + i) /\
  (arr a + sizeof_any * len a <= 2 ^ UINTPTR_WIDTH ->
   larrp_addrof a i = arr a + sizeof_any * i).
Proof.
  intros Harr Hi.
  unfold larrp_addrof, larr_addrof, _larr_addrof, sizeof_byte, sizeof_any,
    word in *.
  replace (i <? len a) with true by (symmetry; apply Z.ltb_lt; lia).
  unfold u_add, u_mul. split; intros Hfit.
  - rewrite Z.mul_1_l. rewrite (wrap_small i) by lia.
    apply wrap_small. lia.
  - rewrite (wrap_small (8 * i)) by lia. apply wrap_small. lia.
Qed.

Lemma init_byte_succeeds_iff_witness :
  fst (fst (dynarr_init sizeof_byte scripted_alloc
              {| cap := 0; Buffer.len := 0; buf := NULL |} 16
              {| answers := [4096]; calls := [] |})) = true <->
  16 <> 0 /\ 4096 <> NULL.
Proof.
  apply (init_byte_succeeds_iff scripted_alloc
           {| cap := 0; Buffer.len := 0; buf := NULL |} 16
           {| answers := [4096]; calls := [] |}).
  unfold word, UINTPTR_WIDTH. lia.
Defined.

Lemma typed_slice_strides_witness :
  let a := _larr_mk 5 4096 in
  (arr a + len a <= 2 ^ UINTPTR_WIDTH ->
   larr_addrof sizeof_byte a 3 = arr a + 3) /\
  (arr a + sizeof_any * len a <= 2 ^ UINTPTR_WIDTH ->
   larrp_addrof a 3 = arr a + sizeof_any * 3).
Proof.
  apply (typed_slice_strides (_larr_mk 5 4096) 3).
  - unfold word, UINTPTR_WIDTH. cbn. lia.
  - cbn. lia.
Defined.

End TypedLaws.
